(** * Elementary row operations and Gauss-Jordan reduction
    ([matrix/elementary.py])

    A shallow embedding of the four functions of [matrix/elementary.py]
    ([rowswap], [rowscale], [rowreplacement], [rref]) and of the helper
    [_as_float_tensor].

    - Scalars are IEEE-754 binary64 numbers: Rocq's primitive [float], whose
      operations are the ones of [torch.float64] and of Python's [float].
      The arguments are those held in double precision, float64 tensors and
      nested sequences of numbers; what is proved is proved of these.
    - A two-dimensional tensor is its list of rows.  Tensors are mutable
      objects: they live in a [store], are named by a location, and the
      functions run in a store-passing monad with Python's exceptions, so
      that [clone] and the in-place slice assignments of the source are
      written as they are in the source.
    - Row indices are Python [int]s ([Z]); a tensor index may be negative and
      then counts from the end, as everywhere in torch. *)

From Stdlib Require Import ZArith QArith Qabs Bool Lia Floats.
From stdpp Require Import base list.

(** ** Scalars *)

Module Scalar.

(** The default tolerance [1e-12] of [rref]: the binary64 number nearest to
    it, which is what Python's literal denotes. *)
Definition default_eps : float := 0x1.19799812dea11p-40%float.

(** Python's [a > b] on floats. *)
Definition gt (a b : float) : bool := (b <? a)%float.

(** The test [abs(x) < eps] of the final clean-up. *)
Definition tiny (eps x : float) : bool := (abs x <? eps)%float.


End Scalar.

#[global] Instance float_inhabited : Inhabited float := populate 0%float.

(** ** The store of tensors and the monad of the embedding *)

(** Python exceptions the functions can raise.  [StaleHandle] is not a Python
    exception: it is the outcome of naming a tensor that is not in the store,
    which no Python program can do. *)
Inductive exn : Set :=
| IndexError
| ValueError
| ZeroDivisionError
| StaleHandle.

Inductive outcome (A : Type) : Type :=
| Ok (a : A)
| Raise (e : exn).
Arguments Ok {A} a.
Arguments Raise {A} e.

Abbreviation loc := nat (only parsing).
Abbreviation tensor := (list (list float)) (only parsing).
Abbreviation store := (list (list (list float))) (only parsing).

Definition Py (A : Type) : Type := store -> outcome A * store.

Definition ret {A} (a : A) : Py A := fun s => (Ok a, s).
Definition raise {A} (e : exn) : Py A := fun s => (Raise e, s).
Definition bind {A B} (m : Py A) (k : A -> Py B) : Py B :=
  fun s => match m s with
           | (Ok a, s') => k a s'
           | (Raise e, s') => (Raise e, s')
           end.

Notation "'let!' x ':=' m 'in' k" := (bind m (fun x => k))
  (at level 10, x name, m at level 100, k at level 200).
Notation "'do!' m 'in' k" := (bind m (fun _ => k))
  (at level 10, m at level 100, k at level 200).

(** Reading the contents of a tensor, overwriting them in place, and
    allocating a new tensor. *)
Definition read (l : loc) : Py tensor :=
  fun s => match s !! l with
           | Some d => (Ok d, s)
           | None => (Raise StaleHandle, s)
           end.

Definition write (l : loc) (d : tensor) : Py unit :=
  fun s => (Ok tt, <[l := d]> s).

Definition alloc (d : tensor) : Py loc :=
  fun s => (Ok (length s), s ++ [d]).

(** ** Shapes and indices *)

Definition rows (d : tensor) : nat := length d.

Definition cols (d : tensor) : nat :=
  match d with
  | [] => 0
  | row :: _ => length row
  end.

(** All rows have the length of the first one. *)
Definition rect (d : tensor) : Prop := Forall (fun row => length row = cols d) d.

Definition rectb (d : tensor) : bool :=
  forallb (fun row => length row =? cols d) d.

(** torch's index normalisation along a dimension of size [n]: [0 <= i < n]
    is the position [i], [-n <= i < 0] is the position [n + i], and anything
    else is out of bounds. *)
Definition norm_index (n : nat) (i : Z) : option nat :=
  if (0 <=? i)%Z && (i <? Z.of_nat n)%Z then Some (Z.to_nat i)
  else if (- Z.of_nat n <=? i)%Z && (i <? 0)%Z then Some (Z.to_nat (Z.of_nat n + i))
  else None.

(** A Python [int] that fits in 64 bits. *)
Definition int64 (i : Z) : bool := (- 2 ^ 63 <=? i)%Z && (i <? 2 ^ 63)%Z.

(** The exception torch raises for indices of which one is out of bounds along
    a dimension of size [n]: [ValueError] when an index that is out of bounds
    does not fit in 64 bits (it cannot be unpacked), [IndexError] otherwise.
    A dimension has fewer than [2^63] positions, so that an index within
    bounds always fits. *)
Definition index_error (n : nat) (idx : list Z) : exn :=
  if forallb (fun i => match norm_index n i with
                       | Some _ => true
                       | None => int64 i
                       end) idx
  then IndexError else ValueError.

(** The positions a list of indices addresses. *)
Definition indices (n : nat) (idx : list Z) : Py (list nat) :=
  match mapM (norm_index n) idx with
  | Some ks => ret ks
  | None => raise (index_error n idx)
  end.

Definition index (n : nat) (i : Z) : Py nat :=
  match norm_index n i with
  | Some k => ret k
  | None => raise (index_error n [i])
  end.

(** [M[i, :]] read as a value. *)
Definition get_row (M : loc) (i : Z) : Py (list float) :=
  let! d := read M in
  let! k := index (rows d) i in
  ret (d !!! k).

(** [M[i, :] = row], in place. *)
Definition set_row (M : loc) (i : Z) (row : list float) : Py unit :=
  let! d := read M in
  let! k := index (rows d) i in
  write M (<[k := row]> d).

(** [M[[i1, i2], :]]: advanced indexing takes the list of indices as a whole
    and gathers the rows into a new value. *)
Definition get_rows (M : loc) (idx : list Z) : Py (list (list float)) :=
  let! d := read M in
  let! ks := indices (rows d) idx in
  ret (map (fun k => d !!! k) ks).

(** [M[[i1, i2], :] = vals], in place: every index is checked, then row [ik]
    receives the [k]-th value. *)
Definition put_rows (M : loc) (idx : list Z) (vals : list (list float)) : Py unit :=
  let! d := read M in
  let! ks := indices (rows d) idx in
  write M (foldl (fun d' kv => <[kv.1 := kv.2]> d') d (zip ks vals)).

(** [M[i, c].item()]. *)
Definition item (M : loc) (i c : Z) : Py float :=
  let! d := read M in
  let! k := index (rows d) i in
  let! j := index (length (d !!! k)) c in
  ret ((d !!! k) !!! j).

(** ** [_as_float_tensor] *)

(** What a caller passes for [A], in double precision: a float64 tensor, or a
    nested sequence of numbers with at least one row ([torch.tensor] of an
    empty sequence is one-dimensional, which no function of the module
    accepts), which [torch.tensor(A, dtype=torch.float64)] turns into a
    float64 tensor.  On these the dtype test of [_as_float_tensor] changes
    nothing, and every product, sum and comparison of the module is one of
    binary64 numbers.  The source also takes a float32 tensor, which it
    keeps and computes with in single precision, and a tensor of another
    dtype, which it converts to float64 first: these are not arguments of
    the embedding, and no property below speaks of them. *)
Inductive arg : Type :=
| Tensor (l : loc)
| Nested (row : list float) (more : list (list float)).

(** [torch.tensor(A, dtype=torch.float64)] on a nested sequence: ragged input
    is refused. *)
Definition torch_tensor (row : list float) (more : list (list float)) : Py loc :=
  if rectb (row :: more) then alloc (row :: more) else raise ValueError.

(** [A.clone()]. *)
Definition clone (l : loc) : Py loc :=
  let! d := read l in alloc d.

(** On a nested sequence, [torch.tensor] and then [clone]; on a float64
    tensor, for which the [elif] does not apply, [clone] alone. *)
Definition _as_float_tensor (A : arg) : Py loc :=
  let! A' := match A with
             | Nested row more => torch_tensor row more
             | Tensor l => ret l
             end in
  clone A'.

(** ** The elementary row operations *)

Definition rowswap (A : arg) (i j : Z) : Py loc :=
  let! M := _as_float_tensor A in
  let! rhs := get_rows M [j; i] in
  do! put_rows M [i; j] rhs in
  ret M.

Definition rowscale (A : arg) (i : Z) (factor : float) : Py loc :=
  let! M := _as_float_tensor A in
  let! Ri := get_row M i in
  do! set_row M i (map (fun x => factor * x)%float Ri) in
  ret M.

Definition rowreplacement (A : arg) (i j : Z) (j_scale k_scale : float) : Py loc :=
  let! M := _as_float_tensor A in
  let! Ri := get_row M i in
  let! Rj := get_row M j in
  do! set_row M i (zip_with (fun x y => x + y)%float
                            (map (fun x => j_scale * x)%float Ri)
                            (map (fun y => k_scale * y)%float Rj)) in
  ret M.

(** ** [rref] *)

(** Python's [1.0 / pivot]. *)
Definition pydiv (a b : float) : Py float :=
  if (b =? 0)%float then raise ZeroDivisionError else ret (a / b)%float.

(** The pivot search: the loop [for rr in range(r, rows)] with its two
    variables [max_val] and [pivot_row]. *)
Fixpoint find_pivot (M : loc) (c : nat) (rrs : list nat)
         (max_val : float) (pivot_row : option nat) : Py (option nat) :=
  match rrs with
  | [] => ret pivot_row
  | rr :: rest =>
      let! x := item M (Z.of_nat rr) (Z.of_nat c) in
      let val := abs x in
      if Scalar.gt val max_val
      then find_pivot M c rest val (Some rr)
      else find_pivot M c rest max_val pivot_row
  end.

(** The elimination loop [for rr in range(rows)]. *)
Fixpoint eliminate (eps : float) (r c : nat) (rrs : list nat) (M : loc) : Py loc :=
  match rrs with
  | [] => ret M
  | rr :: rest =>
      if rr =? r then eliminate eps r c rest M
      else
        let! factor := item M (Z.of_nat rr) (Z.of_nat c) in
        if Scalar.gt (abs factor) eps
        then let! M' := rowreplacement (Tensor M) (Z.of_nat rr) (Z.of_nat r) 1 (- factor) in
             eliminate eps r c rest M'
        else eliminate eps r c rest M
  end.

(** What the body of the column loop does once a pivot row is known: swap,
    scale, eliminate. *)
Definition reduce_column (eps : float) (nrows r c pivot_row : nat) (M : loc) : Py loc :=
  let! M := (if pivot_row =? r then ret M
             else rowswap (Tensor M) (Z.of_nat r) (Z.of_nat pivot_row)) in
  let! pivot := item M (Z.of_nat r) (Z.of_nat c) in
  let! M := (if Scalar.gt (abs pivot) eps
             then let! f := pydiv 1 pivot in rowscale (Tensor M) (Z.of_nat r) f
             else ret M) in
  eliminate eps r c (seq 0 nrows) M.

(** The loop [for c in range(cols)], with its [break]s and its [continue]. *)
Fixpoint sweep (eps : float) (nrows : nat) (cs : list nat) (M : loc) (r : nat) : Py loc :=
  match cs with
  | [] => ret M
  | c :: rest =>
      if nrows <=? r then ret M
      else
        let! p := find_pivot M c (seq r (nrows - r)) eps None in
        match p with
        | None => sweep eps nrows rest M r
        | Some pivot_row =>
            let! M' := reduce_column eps nrows r c pivot_row M in
            if r + 1 =? nrows then ret M'
            else sweep eps nrows rest M' (r + 1)
        end
  end.

(** [M[abs(M) < eps] = 0.0], in place. *)
Definition clean (eps : float) (d : tensor) : tensor :=
  map (map (fun x => if Scalar.tiny eps x then 0%float else x)) d.

Definition rref (A : arg) (eps : float) : Py loc :=
  let! M := _as_float_tensor A in
  let! d := read M in
  let! M := sweep eps (rows d) (seq 0 (cols d)) M 0 in
  let! d' := read M in
  do! write M (clean eps d') in
  ret M.

(** Running a computation and looking at the tensor it returns. *)
Definition result_of (m : Py loc) (s : store) : outcome tensor :=
  match m s with
  | (Ok l, s') => match s' !! l with Some d => Ok d | None => Raise StaleHandle end
  | (Raise e, _) => Raise e
  end.

(** The value an argument denotes in a store: the float64 matrix that
    [_as_float_tensor] copies. *)
Definition arg_value (s : store) (A : arg) : option tensor :=
  match A with
  | Tensor l => s !! l
  | Nested row more => if rectb (row :: more) then Some (row :: more) else None
  end.

(** The nested sequence that holds the rows [d], for the scenarios. *)
Definition nested (d : list (list float)) : arg :=
  match d with
  | [] => Nested [] []
  | row :: more => Nested row more
  end.

(** The indices torch accepts along a dimension of size [n]. *)
Definition in_range (n : nat) (i : Z) : Prop := (- Z.of_nat n <= i < Z.of_nat n)%Z.

(** The row [j_scale * Ri + k_scale * Rj] that [rowreplacement] stores. *)
Definition combine_rows (j_scale k_scale : float) (Ri Rj : list float) : list float :=
  zip_with (fun x y => x + y)%float
           (map (fun x => j_scale * x)%float Ri)
           (map (fun y => k_scale * y)%float Rj).

(** The entry of [d] in row [i] and column [c]. *)
Definition entry (d : tensor) (i c : nat) : float := (d !!! i) !!! c.

(** ** The values the functions compute

    Every function copies its argument and works on the copy, so what it
    returns is a function of the argument's value alone.  These are those
    functions, on tensors as values; the lemmas [*_refines] below prove that
    the store-passing functions above compute them. *)

Definition swap_rows (d : tensor) (ki kj : nat) : tensor :=
  <[kj := d !!! ki]> (<[ki := d !!! kj]> d).

Definition scale_row (d : tensor) (k : nat) (factor : float) : tensor :=
  <[k := map (fun x => factor * x)%float (d !!! k)]> d.

Definition replace_row (d : tensor) (ki kj : nat) (j_scale k_scale : float) : tensor :=
  <[ki := combine_rows j_scale k_scale (d !!! ki) (d !!! kj)]> d.

Definition rowswap_value (d : tensor) (i j : Z) : outcome tensor :=
  match norm_index (rows d) i, norm_index (rows d) j with
  | Some ki, Some kj => Ok (swap_rows d ki kj)
  | _, _ => Raise (index_error (rows d) [j; i])
  end.

Definition rowscale_value (d : tensor) (i : Z) (factor : float) : outcome tensor :=
  match norm_index (rows d) i with
  | Some k => Ok (scale_row d k factor)
  | None => Raise (index_error (rows d) [i])
  end.

Definition rowreplacement_value (d : tensor) (i j : Z) (j_scale k_scale : float)
  : outcome tensor :=
  match norm_index (rows d) i with
  | None => Raise (index_error (rows d) [i])
  | Some ki =>
      match norm_index (rows d) j with
      | None => Raise (index_error (rows d) [j])
      | Some kj => Ok (replace_row d ki kj j_scale k_scale)
      end
  end.

Fixpoint find_pivot_value (d : tensor) (c : nat) (rrs : list nat)
         (max_val : float) (pivot_row : option nat) : option nat :=
  match rrs with
  | [] => pivot_row
  | rr :: rest =>
      let val := abs (entry d rr c) in
      if Scalar.gt val max_val
      then find_pivot_value d c rest val (Some rr)
      else find_pivot_value d c rest max_val pivot_row
  end.

Fixpoint eliminate_value (eps : float) (r c : nat) (rrs : list nat) (d : tensor) : tensor :=
  match rrs with
  | [] => d
  | rr :: rest =>
      if rr =? r then eliminate_value eps r c rest d
      else
        let factor := entry d rr c in
        if Scalar.gt (abs factor) eps
        then eliminate_value eps r c rest (replace_row d rr r 1 (- factor))
        else eliminate_value eps r c rest d
  end.

Definition reduce_column_value (eps : float) (nrows r c pivot_row : nat) (d : tensor)
  : outcome tensor :=
  let d1 := if pivot_row =? r then d else swap_rows d r pivot_row in
  let pivot := entry d1 r c in
  if Scalar.gt (abs pivot) eps
  then if (pivot =? 0)%float then Raise ZeroDivisionError
       else Ok (eliminate_value eps r c (seq 0 nrows) (scale_row d1 r (1 / pivot)))
  else Ok (eliminate_value eps r c (seq 0 nrows) d1).

Fixpoint sweep_value (eps : float) (nrows : nat) (cs : list nat) (d : tensor) (r : nat)
  : outcome tensor :=
  match cs with
  | [] => Ok d
  | c :: rest =>
      if nrows <=? r then Ok d
      else
        match find_pivot_value d c (seq r (nrows - r)) eps None with
        | None => sweep_value eps nrows rest d r
        | Some pivot_row =>
            match reduce_column_value eps nrows r c pivot_row d with
            | Ok d' => if r + 1 =? nrows then Ok d'
                       else sweep_value eps nrows rest d' (r + 1)
            | Raise e => Raise e
            end
        end
  end.

Definition rref_value (d : tensor) (eps : float) : outcome tensor :=
  match sweep_value eps (rows d) (seq 0 (cols d)) d 0 with
  | Ok d' => Ok (clean eps d')
  | Raise e => Raise e
  end.

(** [d] has [n] rows of [m] entries each. *)
Definition shape (n m : nat) (d : tensor) : Prop :=
  length d = n /\ Forall (fun row => length row = m) d.

(** A run that ends with a newly allocated tensor holding [d'], above
    everything the store [s] held, which is all still there. *)
Definition lands (res : outcome loc * store) (s : store) (d' : tensor) : Prop :=
  exists g, res = (Ok (length (s ++ g)), (s ++ g) ++ [d']).

(** A run that agrees with the outcome [v] computed on values and leaves
    what the store [s] held in place. *)
Definition refines (res : outcome loc * store) (s : store) (v : outcome tensor) : Prop :=
  match v with
  | Ok d' => lands res s d'
  | Raise e => exists g, res = (Raise e, s ++ g)
  end.

(** ** Scenarios *)

(** The rational number a finite float stands for. *)
Definition to_Q (x : float) : option Q :=
  match Prim2SF x with
  | S754_zero _ => Some 0%Q
  | S754_finite s m e => Some (inject_Z (if s then Zneg m else Zpos m) * 2 ^ e)%Q
  | _ => None
  end.

(** [x] is finite and at most [tol] away from the integer [v]. *)
Definition within (tol : Q) (x : float) (v : Z) : bool :=
  match to_Q x with
  | Some q => Qle_bool (Qabs (q - inject_Z v)) tol
  | None => false
  end.

(** [R] has the shape of [E] and each of its entries is within [tol] of the
    entry of [E] at its place. *)
Fixpoint row_within (tol : Q) (row : list float) (vs : list Z) : bool :=
  match row, vs with
  | [], [] => true
  | x :: row', v :: vs' => within tol x v && row_within tol row' vs'
  | _, _ => false
  end.

Fixpoint all_within (tol : Q) (R : tensor) (E : list (list Z)) : bool :=
  match R, E with
  | [], [] => true
  | row :: R', vs :: E' => row_within tol row vs && all_within tol R' E'
  | _, _ => false
  end.

Definition example_M : list (list float) :=
  [[0; 3; -6; 6; 4]; [3; -7; 8; -5; 8]; [3; -9; 12; -9; 6]]%float.

Definition example_rref : list (list Z) :=
  [[1; 0; -2; 3; 0]; [0; 1; -2; 2; 0]; [0; 0; 0; 0; 1]]%Z.

(** ** Notions the properties are stated with *)

(** Every tensor of the store is rectangular, as every torch tensor is. *)
Definition rect_store (s : store) : Prop := Forall rect s.

(** What a run leaves of the store [s] it started in: every tensor of [s] is
    still at its location with the contents it had, and a tensor that is
    returned is at a location [s] did not have. *)
Definition framed (s : store) (res : outcome loc * store) : Prop :=
  (forall l, l < length s -> res.2 !! l = s !! l)
  /\ match res.1 with
     | Ok l' => length s <= l' < length res.2
     | Raise _ => True
     end.

(** A run that returns a tensor: the location returned is one the store [s]
    did not have, and the store the run leaves holds the tensor [R] there. *)
Definition allocates (s : store) (res : outcome loc * store) (R : tensor) : Prop :=
  exists l', res.1 = Ok l' /\ length s <= l' /\ res.2 !! l' = Some R.

(** The magnitude of the entry of row [rr] in column [c]. *)
Definition mag (d : tensor) (c rr : nat) : float := abs (entry d rr c).

(** What the pivot search has found among the rows [r .. a-1] of column [c]:
    no row whose magnitude exceeds [eps], or the row [q] whose magnitude
    exceeds [eps], is exceeded by none, and is reached by none of the rows
    before [q]. *)
Definition best (d : tensor) (c : nat) (eps : float) (r a : nat) (p : option nat) : Prop :=
  match p with
  | None => forall rr, r <= rr < a -> Scalar.gt (mag d c rr) eps = false
  | Some q =>
      r <= q < a
      /\ Scalar.gt (mag d c q) eps = true
      /\ (forall rr, r <= rr < a -> Scalar.gt (mag d c rr) (mag d c q) = false)
      /\ (forall rr, r <= rr < q -> (mag d c q <=? mag d c rr)%float = false)
  end.

(** The row [rr] after the elimination of column [c] with the pivot row [r],
    in terms of the tensor [d] the elimination started from. *)
Definition eliminated_row (eps : float) (r c : nat) (d : tensor) (rr : nat) : list float :=
  if rr =? r then d !!! r
  else if Scalar.gt (abs (entry d rr c)) eps
       then combine_rows 1 (- entry d rr c) (d !!! rr) (d !!! r)
       else d !!! rr.

(** ** Exact reduced row echelon forms *)

(** [x] is the float [y] itself ([-0.0] is not [0.0]). *)
Definition same (y x : float) : bool := PrimFloat.Leibniz.eqb x y.

(** [R] is in reduced row echelon form with the pivot of row [i] in column
    [pc !! i], exactly: the rows are as many as [pc] says or more and have one
    length; a pivot is [1.0], what is left of it in its row and what is above
    and below it in its column is [0.0], and it is to the left of the pivot
    of the next row; the rows after the last pivot hold [0.0] only. *)
Definition rref_formb (pc : list nat) (R : tensor) : bool :=
  rectb R && (length pc <=? rows R)
  && forallb
       (fun i =>
          match pc !! i with
          | Some p =>
              (p <? cols R) && same 1 (entry R i p)
              && forallb (fun j => same 0 (entry R i j)) (seq 0 p)
              && forallb (fun i' => (i' =? i) || same 0 (entry R i' p)) (seq 0 (rows R))
              && match pc !! S i with Some p' => p <? p' | None => true end
          | None => forallb (fun j => same 0 (entry R i j)) (seq 0 (cols R))
          end)
       (seq 0 (rows R)).

(** The same, as the facts the proofs use. *)
Definition rref_form (pc : list nat) (R : tensor) : Prop :=
  rect R /\ length pc <= rows R
  /\ (forall i p, pc !! i = Some p ->
       p < cols R /\ entry R i p = 1%float
       /\ (forall j, j < p -> entry R i j = 0%float)
       /\ (forall i', i' < rows R -> i' <> i -> entry R i' p = 0%float))
  /\ (forall i i' p p', i < i' -> pc !! i = Some p -> pc !! i' = Some p' -> p < p')
  /\ (forall i j, length pc <= i < rows R -> j < cols R -> entry R i j = 0%float).

(** ** Further notions: positions, particular matrices *)

(** The row that the index [i] addresses in a tensor of [n] rows, when [i] is
    in range. *)
Definition position (n : nat) (i : Z) : nat :=
  Z.to_nat (if (i <? 0)%Z then Z.of_nat n + i else i).

(** The [n] x [m] matrix of zeros and the identity matrix of size [n]. *)
Definition zeros (n m : nat) : tensor := replicate n (replicate m 0%float).

Definition identity (n : nat) : tensor :=
  map (fun i => map (fun j => if i =? j then 1%float else 0%float) (seq 0 n)) (seq 0 n).

(** No entry of [d] has a magnitude that exceeds [eps]. *)
Definition negligible (eps : float) (d : tensor) : Prop :=
  Forall (Forall (fun x => Scalar.gt (abs x) eps = false)) d.

(** Every entry of [d] has come out of the clean-up: it is [0.0] or its
    magnitude is not less than [eps]. *)
Definition cleaned (eps : float) (d : tensor) : Prop :=
  Forall (Forall (fun x => x = 0%float \/ Scalar.tiny eps x = false)) d.

(** * Properties *)

(** ** Running computations *)

Lemma bind_ok {A B} (m : Py A) (k : A -> Py B) s a s' :
  m s = (Ok a, s') -> bind m k s = k a s'.
Proof. intros E. unfold bind. now rewrite E. Qed.

Lemma bind_raise {A B} (m : Py A) (k : A -> Py B) s e s' :
  m s = (Raise e, s') -> bind m k s = (Raise e, s').
Proof. intros E. unfold bind. now rewrite E. Qed.

Lemma read_ok s l d : s !! l = Some d -> read l s = (Ok d, s).
Proof. intros E. unfold read. now rewrite E. Qed.

Lemma lookup_fresh (s : store) d : (s ++ [d]) !! length s = Some d.
Proof. now rewrite list_lookup_middle. Qed.

Lemma insert_fresh (s : store) d d' : <[length s := d']> (s ++ [d]) = s ++ [d'].
Proof.
  replace (length s) with (length s + 0) by lia.
  now rewrite insert_app_r.
Qed.

Lemma index_ok n i k : norm_index n i = Some k -> forall s, index n i s = (Ok k, s).
Proof. intros E s. unfold index. now rewrite E. Qed.

Lemma index_err n i :
  norm_index n i = None -> forall s, index n i s = (Raise (index_error n [i]), s).
Proof. intros E s. unfold index. now rewrite E. Qed.

(** ** Index normalisation *)

Lemma norm_index_nonneg n i :
  (0 <= i < Z.of_nat n)%Z -> norm_index n i = Some (Z.to_nat i).
Proof.
  intros H. unfold norm_index.
  destruct (Z.leb_spec 0 i), (Z.ltb_spec i (Z.of_nat n)); simpl; try lia; reflexivity.
Qed.

Lemma norm_index_neg n i :
  (- Z.of_nat n <= i < 0)%Z -> norm_index n i = Some (Z.to_nat (Z.of_nat n + i)).
Proof.
  intros H. unfold norm_index.
  destruct (Z.leb_spec 0 i); simpl; [lia|].
  destruct (Z.leb_spec (- Z.of_nat n) i), (Z.ltb_spec i 0); simpl; try lia; reflexivity.
Qed.

Lemma norm_index_of_nat n k : k < n -> norm_index n (Z.of_nat k) = Some k.
Proof.
  intros H. rewrite norm_index_nonneg by lia. now rewrite Nat2Z.id.
Qed.

Lemma norm_index_Some n i k : norm_index n i = Some k -> in_range n i /\ k < n.
Proof.
  unfold norm_index, in_range.
  destruct (Z.leb_spec 0 i), (Z.ltb_spec i (Z.of_nat n)); simpl;
    try (intros [= <-]; split; lia);
    destruct (Z.leb_spec (- Z.of_nat n) i), (Z.ltb_spec i 0); simpl;
    try discriminate; intros [= <-]; split; lia.
Qed.

Lemma norm_index_None n i : norm_index n i = None <-> ~ in_range n i.
Proof.
  unfold norm_index, in_range.
  destruct (Z.leb_spec 0 i), (Z.ltb_spec i (Z.of_nat n)); simpl;
    try (split; [discriminate | lia]);
    destruct (Z.leb_spec (- Z.of_nat n) i), (Z.ltb_spec i 0); simpl;
    split; try discriminate; try lia; auto.
Qed.


Lemma norm_index_is_Some n i : in_range n i -> exists k, norm_index n i = Some k /\ k < n.
Proof.
  intros H. destruct (norm_index n i) as [k|] eqn:E.
  - exists k. split; [reflexivity | now apply norm_index_Some in E].
  - apply norm_index_None in E. contradiction.
Qed.

Lemma norm_index_position n i :
  in_range n i -> norm_index n i = Some (position n i) /\ position n i < n.
Proof.
  intros H. unfold position, in_range in *.
  destruct (Z.ltb_spec i 0).
  - rewrite norm_index_neg by lia. split; [reflexivity | lia].
  - rewrite norm_index_nonneg by lia. split; [reflexivity | lia].
Qed.



Lemma index_error_swap n i j : index_error n [i; j] = index_error n [j; i].
Proof.
  unfold index_error. simpl. rewrite !andb_true_r. now rewrite andb_comm.
Qed.

(** ** The primitives on a tensor of the store *)

Lemma get_row_run s M d i k :
  s !! M = Some d -> norm_index (rows d) i = Some k ->
  get_row M i s = (Ok (d !!! k), s).
Proof.
  intros HM Hi. unfold get_row.
  rewrite (bind_ok _ _ _ _ _ (read_ok _ _ _ HM)).
  now rewrite (bind_ok _ _ _ _ _ (index_ok _ _ _ Hi s)).
Qed.

Lemma get_row_err s M d i :
  s !! M = Some d -> norm_index (rows d) i = None ->
  get_row M i s = (Raise (index_error (rows d) [i]), s).
Proof.
  intros HM Hi. unfold get_row.
  rewrite (bind_ok _ _ _ _ _ (read_ok _ _ _ HM)).
  now rewrite (bind_raise _ _ _ _ _ (index_err _ _ Hi s)).
Qed.

Lemma set_row_run s M d i k row :
  s !! M = Some d -> norm_index (rows d) i = Some k ->
  set_row M i row s = (Ok tt, <[M := <[k := row]> d]> s).
Proof.
  intros HM Hi. unfold set_row.
  rewrite (bind_ok _ _ _ _ _ (read_ok _ _ _ HM)).
  now rewrite (bind_ok _ _ _ _ _ (index_ok _ _ _ Hi s)).
Qed.

Lemma item_run s M d i c k j :
  s !! M = Some d -> norm_index (rows d) i = Some k ->
  norm_index (length (d !!! k)) c = Some j ->
  item M i c s = (Ok ((d !!! k) !!! j), s).
Proof.
  intros HM Hi Hc. unfold item.
  rewrite (bind_ok _ _ _ _ _ (read_ok _ _ _ HM)).
  rewrite (bind_ok _ _ _ _ _ (index_ok _ _ _ Hi s)).
  now rewrite (bind_ok _ _ _ _ _ (index_ok _ _ _ Hc s)).
Qed.

Lemma indices2_ok n i j ki kj :
  norm_index n i = Some ki -> norm_index n j = Some kj ->
  forall s, indices n [i; j] s = (Ok [ki; kj], s).
Proof. intros Hi Hj s. unfold indices. simpl. now rewrite Hi, Hj. Qed.

Lemma indices2_err n i j :
  norm_index n i = None \/ norm_index n j = None ->
  forall s, indices n [i; j] s = (Raise (index_error n [i; j]), s).
Proof.
  intros H s. unfold indices. simpl.
  destruct (norm_index n i) as [ki|]; [|reflexivity].
  destruct H as [H|H]; [discriminate|]. now rewrite H.
Qed.

Lemma get_rows2_run s M d i j ki kj :
  s !! M = Some d ->
  norm_index (rows d) i = Some ki -> norm_index (rows d) j = Some kj ->
  get_rows M [i; j] s = (Ok [d !!! ki; d !!! kj], s).
Proof.
  intros HM Hi Hj. unfold get_rows.
  rewrite (bind_ok _ _ _ _ _ (read_ok _ _ _ HM)).
  now rewrite (bind_ok _ _ _ _ _ (indices2_ok _ _ _ _ _ Hi Hj s)).
Qed.

Lemma get_rows2_err s M d i j :
  s !! M = Some d ->
  norm_index (rows d) i = None \/ norm_index (rows d) j = None ->
  get_rows M [i; j] s = (Raise (index_error (rows d) [i; j]), s).
Proof.
  intros HM H. unfold get_rows.
  rewrite (bind_ok _ _ _ _ _ (read_ok _ _ _ HM)).
  now rewrite (bind_raise _ _ _ _ _ (indices2_err _ _ _ H s)).
Qed.

Lemma put_rows2_run s M d i j ki kj ri rj :
  s !! M = Some d ->
  norm_index (rows d) i = Some ki -> norm_index (rows d) j = Some kj ->
  put_rows M [i; j] [ri; rj] s = (Ok tt, <[M := <[kj := rj]> (<[ki := ri]> d)]> s).
Proof.
  intros HM Hi Hj. unfold put_rows.
  rewrite (bind_ok _ _ _ _ _ (read_ok _ _ _ HM)).
  now rewrite (bind_ok _ _ _ _ _ (indices2_ok _ _ _ _ _ Hi Hj s)).
Qed.

(** ** [_as_float_tensor] copies *)

Lemma as_float_tensor_run s A d :
  arg_value s A = Some d ->
  exists g, _as_float_tensor A s = (Ok (length (s ++ g)), (s ++ g) ++ [d]).
Proof.
  intros H. unfold _as_float_tensor. destruct A as [l | row more]; simpl in H.
  - exists []. rewrite app_nil_r. unfold clone, bind, ret, read. now rewrite H.
  - destruct (rectb (row :: more)) eqn:R; [|discriminate]. injection H as <-.
    exists [row :: more]. unfold torch_tensor. rewrite R.
    unfold clone, bind, alloc, read. now rewrite lookup_fresh.
Qed.

Lemma as_float_tensor_err s A :
  arg_value s A = None ->
  exists e, _as_float_tensor A s = (Raise e, s).
Proof.
  intros H. unfold _as_float_tensor. destruct A as [l | row more]; simpl in H.
  - exists StaleHandle. unfold clone, bind, ret, read. now rewrite H.
  - destruct (rectb (row :: more)) eqn:R; [discriminate|].
    exists ValueError. unfold torch_tensor. now rewrite R.
Qed.

(** ** What the elementary operations compute *)

(** The rows of [d] at the positions [ki] and [kj] exchanged. *)
Lemma rowswap_run s A d i j ki kj :
  arg_value s A = Some d ->
  norm_index (rows d) i = Some ki -> norm_index (rows d) j = Some kj ->
  exists g, rowswap A i j s =
            (Ok (length (s ++ g)), (s ++ g) ++ [swap_rows d ki kj]).
Proof.
  intros HA Hi Hj. destruct (as_float_tensor_run _ _ _ HA) as [g E].
  exists g. unfold rowswap. rewrite (bind_ok _ _ _ _ _ E).
  pose proof (lookup_fresh (s ++ g) d) as HM.
  rewrite (bind_ok _ _ _ _ _ (get_rows2_run _ _ _ _ _ _ _ HM Hj Hi)).
  rewrite (bind_ok _ _ _ _ _ (put_rows2_run _ _ _ _ _ _ _ _ _ HM Hi Hj)).
  unfold ret. now rewrite insert_fresh.
Qed.

Lemma rowswap_err s A d i j :
  arg_value s A = Some d ->
  norm_index (rows d) i = None \/ norm_index (rows d) j = None ->
  exists g, rowswap A i j s = (Raise (index_error (rows d) [j; i]), (s ++ g) ++ [d]).
Proof.
  intros HA H. destruct (as_float_tensor_run _ _ _ HA) as [g E].
  exists g. unfold rowswap. rewrite (bind_ok _ _ _ _ _ E).
  pose proof (lookup_fresh (s ++ g) d) as HM.
  erewrite bind_raise; [reflexivity|].
  apply (get_rows2_err _ _ _ _ _ HM). tauto.
Qed.

Lemma rowscale_run s A d i k factor :
  arg_value s A = Some d -> norm_index (rows d) i = Some k ->
  exists g, rowscale A i factor s =
            (Ok (length (s ++ g)), (s ++ g) ++ [scale_row d k factor]).
Proof.
  intros HA Hi. destruct (as_float_tensor_run _ _ _ HA) as [g E].
  exists g. unfold rowscale. rewrite (bind_ok _ _ _ _ _ E).
  pose proof (lookup_fresh (s ++ g) d) as HM.
  rewrite (bind_ok _ _ _ _ _ (get_row_run _ _ _ _ _ HM Hi)).
  rewrite (bind_ok _ _ _ _ _ (set_row_run _ _ _ _ _ _ HM Hi)).
  unfold ret. now rewrite insert_fresh.
Qed.

Lemma rowscale_err s A d i factor :
  arg_value s A = Some d -> norm_index (rows d) i = None ->
  exists g, rowscale A i factor s = (Raise (index_error (rows d) [i]), (s ++ g) ++ [d]).
Proof.
  intros HA Hi. destruct (as_float_tensor_run _ _ _ HA) as [g E].
  exists g. unfold rowscale. rewrite (bind_ok _ _ _ _ _ E).
  pose proof (lookup_fresh (s ++ g) d) as HM.
  now rewrite (bind_raise _ _ _ _ _ (get_row_err _ _ _ _ HM Hi)).
Qed.

Lemma rowreplacement_run s A d i j ki kj j_scale k_scale :
  arg_value s A = Some d ->
  norm_index (rows d) i = Some ki -> norm_index (rows d) j = Some kj ->
  exists g, rowreplacement A i j j_scale k_scale s =
            (Ok (length (s ++ g)), (s ++ g) ++ [replace_row d ki kj j_scale k_scale]).
Proof.
  intros HA Hi Hj. destruct (as_float_tensor_run _ _ _ HA) as [g E].
  exists g. unfold rowreplacement. rewrite (bind_ok _ _ _ _ _ E).
  pose proof (lookup_fresh (s ++ g) d) as HM.
  rewrite (bind_ok _ _ _ _ _ (get_row_run _ _ _ _ _ HM Hi)).
  rewrite (bind_ok _ _ _ _ _ (get_row_run _ _ _ _ _ HM Hj)).
  rewrite (bind_ok _ _ _ _ _ (set_row_run _ _ _ _ _ _ HM Hi)).
  unfold ret. now rewrite insert_fresh.
Qed.

Lemma rowreplacement_err s A d i j j_scale k_scale :
  arg_value s A = Some d ->
  norm_index (rows d) i = None \/ norm_index (rows d) j = None ->
  exists g, rowreplacement A i j j_scale k_scale s
            = (Raise (match norm_index (rows d) i with
                      | None => index_error (rows d) [i]
                      | Some _ => index_error (rows d) [j]
                      end), (s ++ g) ++ [d]).
Proof.
  intros HA H. destruct (as_float_tensor_run _ _ _ HA) as [g E].
  exists g. unfold rowreplacement. rewrite (bind_ok _ _ _ _ _ E).
  pose proof (lookup_fresh (s ++ g) d) as HM.
  destruct (norm_index (rows d) i) as [ki|] eqn:Hi.
  - destruct H as [H|Hj]; [discriminate|].
    rewrite (bind_ok _ _ _ _ _ (get_row_run _ _ _ _ _ HM Hi)).
    now rewrite (bind_raise _ _ _ _ _ (get_row_err _ _ _ _ HM Hj)).
  - now rewrite (bind_raise _ _ _ _ _ (get_row_err _ _ _ _ HM Hi)).
Qed.

(** ** Facts about binary64 numbers *)

Module FloatFacts.

Ltac cmp_cases :=
  repeat match goal with
  | |- context [Pos.compare_cont Eq ?a ?b] =>
      change (Pos.compare_cont Eq a b) with (Pos.compare a b)
  | H : context [Pos.compare_cont Eq ?a ?b] |- _ =>
      change (Pos.compare_cont Eq a b) with (Pos.compare a b) in H
  | |- context [Z.compare ?a ?b] => destruct (Z.compare_spec a b); subst
  | H : context [Z.compare ?a ?b] |- _ => destruct (Z.compare_spec a b); subst
  | |- context [Pos.compare ?a ?b] => destruct (Pos.compare_spec a b); subst
  | H : context [Pos.compare ?a ?b] |- _ => destruct (Pos.compare_spec a b); subst
  end.

Lemma SFltb_irrefl x : SFltb x x = false.
Proof.
  unfold SFltb, SFcompare. destruct x as [[]|[]| |[] m e]; try reflexivity;
    change (Pos.compare_cont Eq m m) with (Pos.compare m m);
    rewrite Z.compare_refl, Pos.compare_refl; reflexivity.
Qed.

Lemma SFltb_trans a b c : SFltb a b = true -> SFltb b c = true -> SFltb a c = true.
Proof.
  unfold SFltb, SFcompare.
  destruct a as [[]|[]| |[] ma ea], b as [[]|[]| |[] mb eb], c as [[]|[]| |[] mc ec];
    try discriminate; try reflexivity; intros H1 H2;
    cmp_cases; simpl in *; try discriminate; try reflexivity; try lia.
Qed.

Lemma SFltb_leb_trans a b c : SFltb a b = true -> SFleb b c = true -> SFltb a c = true.
Proof.
  unfold SFltb, SFleb, SFcompare.
  destruct a as [[]|[]| |[] ma ea], b as [[]|[]| |[] mb eb], c as [[]|[]| |[] mc ec];
    try discriminate; try reflexivity; intros H1 H2;
    cmp_cases; simpl in *; try discriminate; try reflexivity; try lia.
Qed.

(** The strict order of floats: irreflexive and transitive, also through
    [<=]; a NaN compares with nothing. *)
Lemma ltb_irrefl x : (x <? x)%float = false.
Proof. rewrite FloatAxioms.ltb_spec. apply SFltb_irrefl. Qed.

Lemma ltb_trans a b c : (a <? b)%float = true -> (b <? c)%float = true -> (a <? c)%float = true.
Proof. rewrite !FloatAxioms.ltb_spec. apply SFltb_trans. Qed.

Lemma ltb_leb_trans a b c :
  (a <? b)%float = true -> (b <=? c)%float = true -> (a <? c)%float = true.
Proof. rewrite !FloatAxioms.ltb_spec, FloatAxioms.leb_spec. apply SFltb_leb_trans. Qed.

Lemma Prim2SF_one : Prim2SF 1 = S754_finite false 4503599627370496 (-52).
Proof. vm_compute. reflexivity. Qed.

Lemma Prim2SF_zero : Prim2SF 0 = S754_zero false.
Proof. vm_compute. reflexivity. Qed.


Lemma digits_shift m :
  Zdigits2 (Zpos (4503599627370496 * m)) = (Zpos (digits2_pos m) + 52)%Z.
Proof.
  change (4503599627370496 * m)%positive with (Pos.iter xO m 52).
  cbn [Pos.iter Zdigits2 digits2_pos]. lia.
Qed.

Lemma iter_shr_shift m :
  SpecFloat.iter_pos shr_1 52
     {| shr_m := Zpos (4503599627370496 * m); shr_r := false; shr_s := false |}
  = {| shr_m := Zpos m; shr_r := false; shr_s := false |}.
Proof.
  change (4503599627370496 * m)%positive with (Pos.iter xO m 52).
  vm_compute. reflexivity.
Qed.

(** Rounding [m * 2^52 * 2^(e - 52)] gives back the canonical [m * 2^e]. *)
Lemma round_exact s m e :
  bounded prec emax m e = true ->
  binary_round_aux prec emax s (Zpos (4503599627370496 * m)) (-52 + e) loc_Exact
  = S754_finite s m e.
Proof.
  intros B. unfold bounded in B. apply andb_prop in B as [C L].
  unfold canonical_mantissa in C. apply Z.eqb_eq in C.
  unfold binary_round_aux, shr_fexp.
  rewrite digits_shift.
  replace (Zpos (digits2_pos m) + 52 + (-52 + e))%Z with (Zpos (digits2_pos m) + e)%Z by lia.
  rewrite C. replace (e - (-52 + e))%Z with 52%Z by lia.
  cbn [shr shr_record_of_loc].
  rewrite iter_shr_shift.
  cbn [shr_m loc_of_shr_record round_nearest_even Zdigits2].
  replace (-52 + e + 52)%Z with e by lia.
  rewrite C, Z.sub_diag. cbn [shr shr_m]. now rewrite L.
Qed.

(** Multiplying by [1.0] is exact, for every float. *)
Lemma mul_1_l x : (1 * x)%float = x.
Proof.
  apply Prim2SF_inj. rewrite FloatAxioms.mul_spec, Prim2SF_one.
  pose proof (Prim2SF_valid x) as V.
  destruct (Prim2SF x) as [s|s| |s m e].
  - reflexivity.
  - reflexivity.
  - reflexivity.
  - unfold SF64mul, SFmul. cbn [xorb]. now apply round_exact.
Qed.




(** A float whose magnitude exceeds a tolerance that is not negative is
    not a zero. *)
Lemma gt_abs_nonzero eps x :
  Scalar.gt (abs x) eps = true -> (eps <? 0)%float = false -> (x =? 0)%float = false.
Proof.
  unfold Scalar.gt. rewrite !FloatAxioms.ltb_spec, FloatAxioms.eqb_spec, FloatAxioms.abs_spec, Prim2SF_zero.
  destruct (Prim2SF x) as [s|s| |s m e].
  - cbn [SFabs]. congruence.
  - intros _ _. destruct s; reflexivity.
  - reflexivity.
  - intros _ _. destruct s; reflexivity.
Qed.

(** A positive tolerance is not negative. *)
Lemma pos_not_neg eps : (0 <? eps)%float = true -> (eps <? 0)%float = false.
Proof.
  intros H. destruct (eps <? 0)%float eqn:E; [|reflexivity].
  pose proof (ltb_trans _ _ _ H E) as C. now rewrite ltb_irrefl in C.
Qed.

End FloatFacts.

(** ** Shapes are kept *)

Lemma shape_rect d : rect d <-> shape (rows d) (cols d) d.
Proof. unfold rect, shape, rows. tauto. Qed.

Lemma shape_lookup n m d k : shape n m d -> k < n -> length (d !!! k) = m.
Proof.
  intros [L F] H. rewrite Forall_lookup in F.
  apply (F k). apply list_lookup_lookup_total_lt. lia.
Qed.

Lemma shape_insert n m d k row :
  shape n m d -> length row = m -> shape n m (<[k := row]> d).
Proof.
  intros [L F] H. split; [now rewrite length_insert|].
  apply Forall_insert; assumption.
Qed.

Lemma combine_rows_length m js ks Ri Rj :
  length Ri = m -> length Rj = m -> length (combine_rows js ks Ri Rj) = m.
Proof.
  intros Hi Hj. unfold combine_rows.
  rewrite length_zip_with, !length_map. lia.
Qed.

Lemma shape_swap_rows n m d ki kj :
  shape n m d -> ki < n -> kj < n -> shape n m (swap_rows d ki kj).
Proof.
  intros S Hi Hj. unfold swap_rows.
  apply shape_insert; [apply shape_insert|]; eauto using shape_lookup.
Qed.

Lemma shape_scale_row n m d k f :
  shape n m d -> k < n -> shape n m (scale_row d k f).
Proof.
  intros S Hk. unfold scale_row. apply shape_insert; [assumption|].
  rewrite length_map. eauto using shape_lookup.
Qed.

Lemma shape_replace_row n m d ki kj js ks :
  shape n m d -> ki < n -> kj < n -> shape n m (replace_row d ki kj js ks).
Proof.
  intros S Hi Hj. unfold replace_row. apply shape_insert; [assumption|].
  apply combine_rows_length; eauto using shape_lookup.
Qed.

Lemma shape_eliminate_value eps r c rrs : forall n m d,
  shape n m d -> r < n -> Forall (fun rr => rr < n) rrs ->
  shape n m (eliminate_value eps r c rrs d).
Proof.
  induction rrs as [|rr rest IH]; intros n m d S Hr F; simpl; [assumption|].
  inversion F as [|? ? Hrr F']; subst.
  destruct (rr =? r); [now apply IH|].
  destruct (Scalar.gt _ _); apply IH; auto using shape_replace_row.
Qed.

Lemma Forall_seq_lt a k n : a + k <= n -> Forall (fun rr => rr < n) (seq a k).
Proof.
  intros H. apply Forall_forall. intros x Hx.
  apply list_elem_of_In, in_seq in Hx. lia.
Qed.

Lemma shape_reduce_column_value eps n m r c p d d' :
  shape n m d -> r < n -> p < n ->
  reduce_column_value eps n r c p d = Ok d' -> shape n m d'.
Proof.
  intros S Hr Hp. unfold reduce_column_value.
  set (d1 := if p =? r then d else swap_rows d r p).
  assert (S1 : shape n m d1).
  { unfold d1. destruct (p =? r); auto using shape_swap_rows. }
  destruct (Scalar.gt _ _).
  - destruct (_ =? _)%float; [discriminate|]. intros [= <-].
    apply shape_eliminate_value; auto using shape_scale_row, Forall_seq_lt.
  - intros [= <-]. apply shape_eliminate_value; auto using Forall_seq_lt.
Qed.

Lemma find_pivot_value_elem d c rrs : forall mx p q,
  find_pivot_value d c rrs mx p = Some q -> p = Some q \/ q ∈ rrs.
Proof.
  induction rrs as [|rr rest IH]; intros mx p q; simpl.
  - auto.
  - destruct (Scalar.gt _ _); intros H; apply IH in H as [H|H].
    + injection H as <-. right. left.
    + right. now right.
    + now left.
    + right. now right.
Qed.

Lemma find_pivot_value_range d c r n eps q :
  find_pivot_value d c (seq r (n - r)) eps None = Some q -> r <= q < n.
Proof.
  intros H. apply find_pivot_value_elem in H as [H|H]; [discriminate|].
  apply list_elem_of_In, in_seq in H. lia.
Qed.

(** ** The store-passing functions compute the value functions *)

Lemma lands_weaken res s h d' : lands res (s ++ h) d' -> lands res s d'.
Proof.
  intros [g ->]. exists (h ++ g). now rewrite !app_assoc.
Qed.

Lemma refines_weaken res s h v : refines res (s ++ h) v -> refines res s v.
Proof.
  destruct v as [d'|e]; simpl.
  - apply lands_weaken.
  - intros [g ->]. exists (h ++ g). now rewrite app_assoc.
Qed.

Lemma rowswap_refines s A d i j :
  arg_value s A = Some d -> refines (rowswap A i j s) s (rowswap_value d i j).
Proof.
  intros HA. unfold rowswap_value.
  destruct (norm_index (rows d) i) as [ki|] eqn:Hi.
  - destruct (norm_index (rows d) j) as [kj|] eqn:Hj.
    + exact (rowswap_run _ _ _ _ _ _ _ HA Hi Hj).
    + destruct (rowswap_err s A d i j HA (or_intror Hj)) as [g E].
      exists (g ++ [d]). now rewrite app_assoc.
  - destruct (rowswap_err s A d i j HA (or_introl Hi)) as [g E].
    exists (g ++ [d]). now rewrite app_assoc.
Qed.

Lemma rowscale_refines s A d i factor :
  arg_value s A = Some d -> refines (rowscale A i factor s) s (rowscale_value d i factor).
Proof.
  intros HA. unfold rowscale_value.
  destruct (norm_index (rows d) i) as [k|] eqn:Hi.
  - exact (rowscale_run _ _ _ _ _ _ HA Hi).
  - destruct (rowscale_err s A d i factor HA Hi) as [g E].
    exists (g ++ [d]). now rewrite app_assoc.
Qed.

Lemma rowreplacement_refines s A d i j js ks :
  arg_value s A = Some d ->
  refines (rowreplacement A i j js ks s) s (rowreplacement_value d i j js ks).
Proof.
  intros HA. unfold rowreplacement_value.
  destruct (norm_index (rows d) i) as [ki|] eqn:Hi.
  - destruct (norm_index (rows d) j) as [kj|] eqn:Hj.
    + exact (rowreplacement_run _ _ _ _ _ _ _ _ _ HA Hi Hj).
    + destruct (rowreplacement_err s A d i j js ks HA (or_intror Hj)) as [g E].
      rewrite Hi in E. exists (g ++ [d]). now rewrite app_assoc.
  - destruct (rowreplacement_err s A d i j js ks HA (or_introl Hi)) as [g E].
    rewrite Hi in E. exists (g ++ [d]). now rewrite app_assoc.
Qed.

Lemma item_value s M n m d rr c :
  s !! M = Some d -> shape n m d -> rr < n -> c < m ->
  item M (Z.of_nat rr) (Z.of_nat c) s = (Ok (entry d rr c), s).
Proof.
  intros HM S Hr Hc. destruct S as [L F].
  apply (item_run s M d).
  - assumption.
  - apply norm_index_of_nat. unfold rows. lia.
  - apply norm_index_of_nat. rewrite (shape_lookup n m); [assumption|now split|assumption].
Qed.

Lemma find_pivot_refines s M n m d c rrs : forall mx p,
  s !! M = Some d -> shape n m d -> c < m -> Forall (fun rr => rr < n) rrs ->
  find_pivot M c rrs mx p s = (Ok (find_pivot_value d c rrs mx p), s).
Proof.
  induction rrs as [|rr rest IH]; intros mx p HM S Hc F; simpl; [reflexivity|].
  inversion F as [|? ? Hrr F']; subst.
  rewrite (bind_ok _ _ _ _ _ (item_value _ _ _ _ _ _ _ HM S Hrr Hc)).
  destruct (Scalar.gt _ _); now apply IH.
Qed.

Lemma top_value (s0 : store) d : arg_value (s0 ++ [d]) (Tensor (length s0)) = Some d.
Proof. simpl. apply lookup_fresh. Qed.

Lemma eliminate_refines eps r c n m rrs : forall s0 d,
  shape n m d -> r < n -> c < m -> Forall (fun rr => rr < n) rrs ->
  lands (eliminate eps r c rrs (length s0) (s0 ++ [d])) s0 (eliminate_value eps r c rrs d).
Proof.
  induction rrs as [|rr rest IH]; intros s0 d S Hr Hc F; simpl.
  - exists []. now rewrite app_nil_r.
  - inversion F as [|? ? Hrr F']; subst.
    destruct (rr =? r); [now apply IH|].
    rewrite (bind_ok _ _ _ _ _
               (item_value _ _ _ _ _ _ _ (lookup_fresh s0 d) S Hrr Hc)).
    destruct (Scalar.gt _ _); [|now apply IH].
    destruct S as [L Fm].
    destruct (rowreplacement_run (s0 ++ [d]) (Tensor (length s0)) d
                (Z.of_nat rr) (Z.of_nat r) rr r 1 (- entry d rr c)%float
                (top_value s0 d)) as [g E];
      try (apply norm_index_of_nat; unfold rows; lia).
    rewrite (bind_ok _ _ _ _ _ E).
    apply lands_weaken with (h := [d] ++ g). rewrite app_assoc.
    apply IH; auto. apply shape_replace_row; [now split|lia|lia].
Qed.

Lemma reduce_column_refines eps n m r c p s0 d :
  shape n m d -> r < n -> c < m -> p < n ->
  refines (reduce_column eps n r c p (length s0) (s0 ++ [d])) s0
          (reduce_column_value eps n r c p d).
Proof.
  intros S Hr Hc Hp. unfold reduce_column, reduce_column_value.
  set (d1 := if p =? r then d else swap_rows d r p).
  assert (S1 : shape n m d1).
  { unfold d1. destruct (p =? r); auto using shape_swap_rows. }
  assert (E1 : exists g,
             (if p =? r then ret (length s0)
              else rowswap (Tensor (length s0)) (Z.of_nat r) (Z.of_nat p)) (s0 ++ [d])
             = (Ok (length (s0 ++ g)), (s0 ++ g) ++ [d1])).
  { unfold d1. destruct (p =? r).
    - exists []. now rewrite app_nil_r.
    - destruct (rowswap_run (s0 ++ [d]) (Tensor (length s0)) d
                  (Z.of_nat r) (Z.of_nat p) r p (top_value s0 d)) as [g E];
        try (apply norm_index_of_nat; destruct S; unfold rows; lia).
      exists ([d] ++ g). now rewrite !app_assoc. }
  destruct E1 as [g E1]. rewrite (bind_ok _ _ _ _ _ E1).
  apply refines_weaken with (h := g).
  generalize (s0 ++ g). clear E1 g. intros s1.
  rewrite (bind_ok _ _ _ _ _
             (item_value _ _ _ _ _ _ _ (lookup_fresh s1 d1) S1 Hr Hc)).
  fold (entry d1 r c). set (pivot := entry d1 r c).
  destruct (Scalar.gt (abs pivot) eps).
  - unfold pydiv. destruct (pivot =? 0)%float.
    + exists [d1]. reflexivity.
    + cbn [bind ret].
      change (bind (bind (ret (1 / pivot)%float)
                         (fun f => rowscale (Tensor (length s1)) (Z.of_nat r) f)) ?k ?s)
        with (bind (rowscale (Tensor (length s1)) (Z.of_nat r) (1 / pivot)%float) k s).
      destruct (rowscale_run (s1 ++ [d1]) (Tensor (length s1)) d1
                  (Z.of_nat r) r (1 / pivot)%float (top_value s1 d1)) as [g E];
        try (apply norm_index_of_nat; destruct S1; unfold rows; lia).
      rewrite (bind_ok _ _ _ _ _ E).
      apply lands_weaken with (h := [d1] ++ g). rewrite app_assoc.
      apply (eliminate_refines eps r c n m); auto using shape_scale_row, Forall_seq_lt.
  - cbn [bind ret].
    apply (eliminate_refines eps r c n m); auto using Forall_seq_lt.
Qed.

Lemma sweep_refines eps n m cs : forall s0 d r,
  shape n m d -> Forall (fun c => c < m) cs ->
  refines (sweep eps n cs (length s0) r (s0 ++ [d])) s0 (sweep_value eps n cs d r).
Proof.
  induction cs as [|c rest IH]; intros s0 d r S F; simpl.
  - exists []. now rewrite app_nil_r.
  - inversion F as [|? ? Hc F']; subst.
    destruct (Nat.leb_spec n r) as [Hr|Hr].
    { exists []. now rewrite app_nil_r. }
    rewrite (bind_ok _ _ _ _ _
               (find_pivot_refines _ _ n m d c _ eps None (lookup_fresh s0 d) S Hc
                  (Forall_seq_lt r (n - r) n ltac:(lia)))).
    destruct (find_pivot_value d c (seq r (n - r)) eps None) as [p|] eqn:P;
      [|now apply IH].
    apply find_pivot_value_range in P.
    pose proof (reduce_column_refines eps n m r c p s0 d S Hr Hc ltac:(lia)) as R.
    pose proof (shape_reduce_column_value eps n m r c p d) as S'.
    destruct (reduce_column_value eps n r c p d) as [d'|e].
    + destruct R as [g R]. rewrite (bind_ok _ _ _ _ _ R).
      destruct (r + 1 =? n).
      * exists g. reflexivity.
      * apply refines_weaken with (h := g). apply IH; auto.
        apply S'; auto; lia.
    + destruct R as [g R]. rewrite (bind_raise _ _ _ _ _ R). now exists g.
Qed.

Lemma Forall_seq_cols k : Forall (fun c => c < k) (seq 0 k).
Proof. apply Forall_seq_lt. lia. Qed.

(** [rref] computes [rref_value] of the value of its argument. *)
Lemma rref_refines s A d eps :
  arg_value s A = Some d -> rect d ->
  refines (rref A eps s) s (rref_value d eps).
Proof.
  intros HA R. apply shape_rect in R.
  destruct (as_float_tensor_run _ _ _ HA) as [g E].
  unfold rref. rewrite (bind_ok _ _ _ _ _ E).
  rewrite (bind_ok _ _ _ _ _ (read_ok _ _ _ (lookup_fresh (s ++ g) d))).
  pose proof (sweep_refines eps (rows d) (cols d) (seq 0 (cols d)) (s ++ g) d 0 R
                (Forall_seq_cols _)) as W.
  unfold rref_value.
  destruct (sweep_value eps (rows d) (seq 0 (cols d)) d 0) as [d'|e].
  - destruct W as [g' W]. rewrite (bind_ok _ _ _ _ _ W).
    rewrite (bind_ok _ _ _ _ _ (read_ok _ _ _ (lookup_fresh ((s ++ g) ++ g') d'))).
    unfold write, bind, ret. rewrite insert_fresh.
    exists (g ++ g'). now rewrite !app_assoc.
  - destruct W as [g' W]. rewrite (bind_raise _ _ _ _ _ W).
    exists (g ++ g'). now rewrite app_assoc.
Qed.

(** What [lands] and [refines] say about the tensor returned. *)
Lemma lands_result (m : Py loc) s d' : lands (m s) s d' -> result_of m s = Ok d'.
Proof.
  intros [g E]. unfold result_of. rewrite E. now rewrite lookup_fresh.
Qed.

Lemma refines_result (m : Py loc) s v : refines (m s) s v -> result_of m s = v.
Proof.
  destruct v as [d'|e]; simpl.
  - apply lands_result.
  - intros [g E]. unfold result_of. now rewrite E.
Qed.

(** * The properties of the specification, C1 to C10 *)

(** ** C1: the scenario *)

(** C1.  For [M = [[0,3,-6,6,4],[3,-7,8,-5,8],[3,-9,12,-9,6]]] and the default
    tolerance, [rref(M)] returns a 3 x 5 tensor each of whose entries is
    within [1e-9] of the entry of [[[1,0,-2,3,0],[0,1,-2,2,0],[0,0,0,0,1]]] at
    its place, whatever the store holds. *)
Theorem rref_example (s : store) :
  exists R, result_of (rref (nested example_M) Scalar.default_eps) s = Ok R
            /\ rows R = 3 /\ Forall (fun row => length row = 5) R
            /\ all_within (1 # 1000000000) R example_rref = true.
Proof.
  assert (HA : arg_value s (nested example_M) = Some example_M) by reflexivity.
  assert (HR : rect example_M) by (repeat constructor).
  pose proof (refines_result _ _ _ (rref_refines s _ _ Scalar.default_eps HA HR)) as E.
  destruct (rref_value example_M Scalar.default_eps) as [R|e] eqn:V;
    [|vm_compute in V; discriminate].
  exists R. split; [assumption|].
  vm_compute in V. injection V as <-.
  split; [reflexivity|]. split; [repeat constructor|].
  vm_compute. reflexivity.
Qed.

(** ** C2: the pivot search *)

(** The loop invariant of the search: after the rows [r .. a-1], [pivot_row]
    is the best of them and [max_val] is its magnitude, or [eps] when there is
    none. *)
Lemma find_pivot_value_best d c eps r k : forall a mx p,
  r <= a ->
  best d c eps r a p ->
  mx = match p with None => eps | Some q => mag d c q end ->
  best d c eps r (a + k) (find_pivot_value d c (seq a k) mx p).
Proof.
  induction k as [|k IH]; intros a mx p Ha B Hmx; simpl.
  - now rewrite Nat.add_0_r.
  - replace (a + S k) with (S a + k) by lia.
    fold (mag d c a).
    destruct (Scalar.gt (mag d c a) mx) eqn:G; unfold Scalar.gt in G.
    + apply IH; [lia| |reflexivity].
      assert (Old : forall rr, r <= rr < a -> (mx <? mag d c rr)%float = false).
      { intros rr Hrr. subst mx. destruct p as [q|]; simpl in B.
        - now apply B.
        - now apply B. }
      simpl. split; [lia|]. split; [|split].
      * unfold Scalar.gt. subst mx. destruct p as [q|]; [|assumption].
        destruct B as (_ & Gq & _). eapply FloatFacts.ltb_trans; eassumption.
      * intros rr Hrr. unfold Scalar.gt.
        destruct (decide (rr = a)) as [->|N]; [apply FloatFacts.ltb_irrefl|].
        destruct (mag d c a <? mag d c rr)%float eqn:C; [|reflexivity].
        rewrite <- (Old rr ltac:(lia)). symmetry.
        eapply FloatFacts.ltb_trans; eassumption.
      * intros rr Hrr.
        destruct (mag d c a <=? mag d c rr)%float eqn:C; [|reflexivity].
        rewrite <- (Old rr ltac:(lia)). symmetry.
        eapply FloatFacts.ltb_leb_trans; eassumption.
    + apply IH; [lia| |assumption].
      subst mx. destruct p as [q|]; simpl in *.
      * destruct B as (Hq & Gq & Max & First). split; [lia|]. split; [assumption|].
        split; [|assumption].
        intros rr Hrr. destruct (decide (rr = a)) as [->|N]; [assumption|].
        apply Max. lia.
      * intros rr Hrr. destruct (decide (rr = a)) as [->|N]; [assumption|].
        apply B. lia.
Qed.

Lemma find_pivot_value_spec d c eps r n :
  r <= n -> best d c eps r n (find_pivot_value d c (seq r (n - r)) eps None).
Proof.
  intros H. replace n with (r + (n - r)) at 1 by lia.
  apply find_pivot_value_best; [lia| |reflexivity].
  simpl. intros rr Hrr. lia.
Qed.

(** C2.  In a column [c], with the cursor [r] below the number of rows, the
    search over the rows [r .. rows-1] returns without touching the store.
    When it returns a row [q], the magnitude of [q]'s entry exceeds [eps], no
    row of [r .. rows-1] has a greater one, and no row before [q] has one as
    great (the first of several maximal rows is taken); the column loop then
    runs the column step (swap, scale, eliminate) with [q] as the pivot row
    and goes on with the tensor this returns and the cursor [r + 1], or stops
    when [r + 1] is the number of rows.  When no magnitude exceeds [eps] the
    search returns no row, and the column loop goes on to the next column
    with the same tensor and the same [r]. *)
Theorem pivot_selection (s : store) (M : loc) (d : tensor) (eps : float)
        (r c : nat) (cs : list nat) :
  s !! M = Some d -> rect d -> r < rows d -> c < cols d ->
  exists p, find_pivot M c (seq r (rows d - r)) eps None s = (Ok p, s)
    /\ best d c eps r (rows d) p
    /\ (p = None ->
        sweep eps (rows d) (c :: cs) M r s = sweep eps (rows d) cs M r s)
    /\ (forall q, p = Some q ->
        sweep eps (rows d) (c :: cs) M r s
        = (let! M' := reduce_column eps (rows d) r c q M in
           if r + 1 =? rows d then ret M' else sweep eps (rows d) cs M' (r + 1)) s).
Proof.
  intros HM R Hr Hc. apply shape_rect in R.
  pose proof (find_pivot_refines s M _ _ d c (seq r (rows d - r)) eps None HM R Hc
                (Forall_seq_lt r (rows d - r) (rows d) ltac:(lia))) as E.
  eexists. split; [exact E|]. split; [|split].
  - apply find_pivot_value_spec. lia.
  - intros P. simpl. destruct (Nat.leb_spec (rows d) r); [lia|].
    rewrite (bind_ok _ _ _ _ _ E). now rewrite P.
  - intros q P. simpl. destruct (Nat.leb_spec (rows d) r); [lia|].
    rewrite (bind_ok _ _ _ _ _ E). now rewrite P.
Qed.

Lemma pivot_selection_witness :
  find_pivot 0 0 (seq 0 (rows example_M - 0)) Scalar.default_eps None [example_M]
  = (Ok (Some 1), [example_M])
  /\ best example_M 0 Scalar.default_eps 0 (rows example_M) (Some 1)
  /\ sweep Scalar.default_eps (rows example_M) [0; 1] 0 0 [example_M]
     = (let! M' := reduce_column Scalar.default_eps (rows example_M) 0 0 1 0 in
        if 0 + 1 =? rows example_M then ret M'
        else sweep Scalar.default_eps (rows example_M) [1] M' (0 + 1)) [example_M].
Proof.
  destruct (pivot_selection [example_M] 0 example_M Scalar.default_eps 0 0 [1])
    as (p & F & B & _ & S).
  - reflexivity.
  - repeat constructor.
  - simpl. lia.
  - simpl. lia.
  - assert (P : p = Some 1).
    { assert (F' : find_pivot 0 0 (seq 0 (rows example_M - 0)) Scalar.default_eps None
                     [example_M] = (Ok (Some 1), [example_M]))
        by (vm_compute; reflexivity).
      rewrite F' in F. now injection F as <-. }
    subst p. split; [exact F|]. split; [exact B|]. now apply S.
Defined.

(** ** C3: the elimination step *)

Lemma combine_rows_lookup js ks (Ri Rj : list float) c :
  c < length Ri -> c < length Rj ->
  combine_rows js ks Ri Rj !!! c = (js * Ri !!! c + ks * Rj !!! c)%float.
Proof.
  intros Hi Hj. apply list_lookup_total_correct. unfold combine_rows.
  rewrite lookup_zip_with, !list_lookup_fmap.
  rewrite (list_lookup_lookup_total_lt Ri c Hi), (list_lookup_lookup_total_lt Rj c Hj).
  reflexivity.
Qed.

(** The loop invariant of the elimination: after the rows below [a], these
    hold their eliminated rows and the others, the pivot row among them, are
    as they were. *)
Lemma eliminate_value_rows eps r c (d : tensor) k : forall a (cur : tensor),
  r < length d -> a + k <= length d -> length cur = length d ->
  (forall rr, rr < a -> cur !!! rr = eliminated_row eps r c d rr) ->
  (forall rr, a <= rr -> cur !!! rr = d !!! rr) ->
  cur !!! r = d !!! r ->
  let d' := eliminate_value eps r c (seq a k) cur in
  length d' = length d
  /\ forall rr, rr < a + k -> d' !!! rr = eliminated_row eps r c d rr.
Proof.
  induction k as [|k IH]; intros a cur Hr Hk L Done Todo Piv; simpl.
  - rewrite Nat.add_0_r. auto.
  - replace (a + S k) with (S a + k) by lia.
    assert (Ea : entry cur a c = entry d a c).
    { unfold entry. now rewrite Todo by lia. }
    destruct (Nat.eqb_spec a r) as [->|N].
    + apply IH; try assumption; try lia.
      * intros rr Hrr. destruct (decide (rr = r)) as [->|N'].
        -- unfold eliminated_row. now rewrite Nat.eqb_refl.
        -- apply Done. lia.
      * intros rr Hrr. apply Todo. lia.
    + rewrite Ea.
      assert (Here : (if Scalar.gt (abs (entry d a c)) eps
                      then combine_rows 1 (- entry d a c) (d !!! a) (d !!! r)
                      else d !!! a) = eliminated_row eps r c d a).
      { unfold eliminated_row. now destruct (Nat.eqb_spec a r). }
      destruct (Scalar.gt (abs (entry d a c)) eps) eqn:G.
      * apply IH; try assumption; try lia.
        -- unfold replace_row. now rewrite length_insert.
        -- intros rr Hrr. unfold replace_row.
           destruct (decide (rr = a)) as [->|N'].
           ++ rewrite list_lookup_total_insert_eq by lia.
              rewrite <- Here, Piv. now rewrite Todo by lia.
           ++ rewrite list_lookup_total_insert_ne by congruence. apply Done. lia.
        -- intros rr Hrr. unfold replace_row.
           rewrite list_lookup_total_insert_ne by lia. apply Todo. lia.
        -- unfold replace_row. now rewrite list_lookup_total_insert_ne by congruence.
      * apply IH; try assumption; try lia.
        -- intros rr Hrr. destruct (decide (rr = a)) as [->|N'].
           ++ rewrite <- Here. apply Todo. lia.
           ++ apply Done. lia.
        -- intros rr Hrr. apply Todo. lia.
Qed.

(** The elimination loop run on any tensor of the store. *)
Lemma eliminate_run eps r c n m rrs : forall (s : store) M d,
  s !! M = Some d -> shape n m d -> r < n -> c < m ->
  Forall (fun rr => rr < n) rrs ->
  exists l' g, eliminate eps r c rrs M s = (Ok l', s ++ g)
               /\ (s ++ g) !! l' = Some (eliminate_value eps r c rrs d).
Proof.
  induction rrs as [|rr rest IH]; intros s M d HM S Hr Hc F; simpl.
  - exists M, []. now rewrite app_nil_r.
  - inversion F as [|? ? Hrr F']; subst.
    destruct (rr =? r); [now apply IH|].
    rewrite (bind_ok _ _ _ _ _ (item_value _ _ _ _ _ _ _ HM S Hrr Hc)).
    destruct (Scalar.gt _ _); [|now apply IH].
    destruct (rowreplacement_run s (Tensor M) d (Z.of_nat rr) (Z.of_nat r) rr r
                1 (- entry d rr c)%float HM) as [g E];
      try (apply norm_index_of_nat; destruct S; unfold rows; lia).
    rewrite (bind_ok _ _ _ _ _ E).
    destruct (eliminate_refines eps r c n m rest (s ++ g)
                (replace_row d rr r 1 (- entry d rr c)))
      as [g' E']; auto using shape_replace_row.
    rewrite E'. eexists _, (g ++ g' ++ [_]). rewrite !app_assoc.
    split; [reflexivity|]. apply lookup_fresh.
Qed.

Lemma entry_swap_rows (d : tensor) r q c :
  r < length d -> q < length d ->
  entry (if q =? r then d else swap_rows d r q) r c = entry d q c.
Proof.
  intros Hr Hq. destruct (Nat.eqb_spec q r) as [->|N]; [reflexivity|].
  unfold entry, swap_rows.
  rewrite list_lookup_total_insert_ne by congruence.
  now rewrite list_lookup_total_insert_eq by lia.
Qed.

Lemma row_swap_rows (d : tensor) r q :
  r < length d -> q < length d ->
  (if q =? r then d else swap_rows d r q) !!! r = d !!! q.
Proof.
  intros Hr Hq. destruct (Nat.eqb_spec q r) as [->|N]; [reflexivity|].
  unfold swap_rows.
  rewrite list_lookup_total_insert_ne by congruence.
  now rewrite list_lookup_total_insert_eq by lia.
Qed.






(** ** C4: the final clean-up *)

(** What the clean-up does to an entry: [0.0] when its magnitude is less than
    [eps], the entry itself otherwise, also when its magnitude is [eps]. *)
Lemma clean_lookup eps (d : tensor) i c :
  i < length d -> c < length (d !!! i) ->
  entry (clean eps d) i c
  = if (abs (entry d i c) <? eps)%float then 0%float else entry d i c.
Proof.
  intros Hi Hc. unfold entry, clean.
  rewrite (list_lookup_total_fmap _ d i Hi).
  now rewrite (list_lookup_total_fmap _ (d !!! i) c Hc).
Qed.

(** C4, on the input that shows the defect.  With the default tolerance
    [eps], [rref([[1, 0], [eps, 1]])] returns its argument: the entry [eps]
    below the pivot of the first column is not eliminated, since its
    magnitude does not exceed [eps], and is not cleaned, since its magnitude
    is not less than [eps]. *)
Theorem cleanup_keeps_entry_of_magnitude_eps (s : store) :
  let M := [[1; 0]; [Scalar.default_eps; 1]]%float in
  result_of (rref (nested M) Scalar.default_eps) s = Ok M
  /\ (abs (entry M 1 0) <=? Scalar.default_eps)%float = true
  /\ (entry M 1 0 =? 0)%float = false.
Proof.
  intros M.
  assert (HA : arg_value s (nested M) = Some M) by reflexivity.
  assert (HR : rect M) by (repeat constructor).
  rewrite (refines_result _ _ _ (rref_refines s _ _ Scalar.default_eps HA HR)).
  repeat split; vm_compute; reflexivity.
Qed.

(** ** C5: row indices out of range *)




(** ** C6: [rowreplacement] of a row with itself *)




(** ** C7: swapping twice *)

Lemma swap_rows_involutive (d : tensor) ki kj :
  ki < length d -> kj < length d -> swap_rows (swap_rows d ki kj) ki kj = d.
Proof.
  intros Hi Hj. unfold swap_rows. apply list_eq. intros k.
  destruct (decide (k = kj)) as [->|Nj].
  - rewrite list_lookup_insert_eq by (rewrite !length_insert; lia).
    destruct (decide (ki = kj)) as [->|N].
    + rewrite list_lookup_total_insert_eq by (rewrite length_insert; lia).
      symmetry. apply list_lookup_lookup_total_lt. lia.
    + rewrite list_lookup_total_insert_ne by congruence.
      rewrite list_lookup_total_insert_eq by lia.
      symmetry. apply list_lookup_lookup_total_lt. lia.
  - rewrite list_lookup_insert_ne by congruence.
    destruct (decide (k = ki)) as [->|Ni].
    + rewrite list_lookup_insert_eq by (rewrite !length_insert; lia).
      rewrite list_lookup_total_insert_eq by (rewrite length_insert; lia).
      symmetry. apply list_lookup_lookup_total_lt. lia.
    + rewrite list_lookup_insert_ne by congruence.
      rewrite list_lookup_insert_ne by congruence.
      now rewrite list_lookup_insert_ne by congruence.
Qed.

(** C7.  For row indices [i] and [j] of [[0, rows)] (different or not),
    [rowswap(M, i, j)] returns a tensor, and swapping the same rows of that
    tensor returns a tensor equal to [M]. *)
Theorem rowswap_involution (s : store) (A : arg) (d : tensor) (i j : Z) :
  arg_value s A = Some d ->
  (0 <= i < Z.of_nat (rows d))%Z -> (0 <= j < Z.of_nat (rows d))%Z ->
  exists l1 s1, rowswap A i j s = (Ok l1, s1)
                /\ result_of (rowswap (Tensor l1) i j) s1 = Ok d.
Proof.
  intros HA Hi Hj.
  destruct (rowswap_run s A d i j _ _ HA (norm_index_nonneg _ _ Hi)
              (norm_index_nonneg _ _ Hj)) as [g E].
  eexists _, _. split; [exact E|].
  set (d1 := swap_rows d (Z.to_nat i) (Z.to_nat j)).
  rewrite (refines_result _ _ _
             (rowswap_refines _ _ d1 i j (top_value (s ++ g) d1))).
  unfold rowswap_value.
  assert (L : rows d1 = rows d) by (unfold d1, swap_rows, rows; now rewrite !length_insert).
  rewrite L, (norm_index_nonneg _ _ Hi), (norm_index_nonneg _ _ Hj).
  f_equal. unfold rows in *. apply swap_rows_involutive; lia.
Qed.

Lemma rowswap_involution_witness :
  exists l1 s1, rowswap (Tensor 0) 0 2 [example_M] = (Ok l1, s1)
                /\ result_of (rowswap (Tensor l1) 0 2) s1 = Ok example_M.
Proof.
  apply (rowswap_involution [example_M] (Tensor 0) example_M 0 2 eq_refl);
    simpl; lia.
Defined.

(** ** C8: applying [rref] to its own result *)

(** First the matrices that [rref] leaves as they are, those exactly in
    reduced row echelon form; then a result of [rref] that is not one of
    them. *)

Lemma same_spec y x : same y x = true <-> x = y.
Proof. unfold same. apply FloatAxioms.Leibniz.eqb_spec. Qed.

Lemma forallb_seq (f : nat -> bool) n :
  forallb f (seq 0 n) = true <-> forall i, i < n -> f i = true.
Proof.
  rewrite forallb_forall. split.
  - intros H i Hi. apply H, in_seq. lia.
  - intros H i Hi. apply in_seq in Hi. apply H. lia.
Qed.

Lemma rectb_spec d : rectb d = true -> rect d.
Proof.
  unfold rectb, rect. rewrite forallb_forall. intros H.
  apply Forall_forall. intros x Hx. apply list_elem_of_In in Hx.
  apply Nat.eqb_eq. now apply H.
Qed.

Lemma rref_formb_spec pc R : rref_formb pc R = true -> rref_form pc R.
Proof.
  unfold rref_formb. rewrite !andb_true_iff, forallb_seq.
  intros [[Rect Len] Rows]. apply rectb_spec in Rect. apply Nat.leb_le in Len.
  assert (Piv : forall i p, pc !! i = Some p ->
            (p < cols R /\ entry R i p = 1%float
             /\ (forall j, j < p -> entry R i j = 0%float)
             /\ (forall i', i' < rows R -> i' <> i -> entry R i' p = 0%float))
            /\ (forall p', pc !! S i = Some p' -> p < p')).
  { intros i p Hp.
    assert (Hi : i < rows R).
    { apply lookup_lt_Some in Hp. lia. }
    specialize (Rows i Hi). rewrite Hp in Rows.
    rewrite !andb_true_iff, !forallb_seq in Rows.
    destruct Rows as [[[[C One] Left] Col] Next].
    apply Nat.ltb_lt in C. apply same_spec in One.
    split; [split; [assumption|split; [assumption|split]]|].
    - intros j Hj. now apply same_spec, Left.
    - intros i' Hi' N. specialize (Col i' Hi').
      apply orb_true_iff in Col as [Col|Col].
      + apply Nat.eqb_eq in Col. contradiction.
      + now apply same_spec.
    - intros p' Hp'. rewrite Hp' in Next. now apply Nat.ltb_lt. }
  split; [assumption|]. split; [assumption|]. split; [|split].
  - intros i p Hp. now apply Piv.
  - intros i i' p p' Hlt. revert p'.
    induction Hlt as [|i' Hle IH]; intros p' Hp Hp'.
    + destruct (Piv i p Hp) as [_ Next]. now apply Next.
    + destruct (pc !! i') as [q|] eqn:Hq.
      * specialize (IH q Hp eq_refl).
        destruct (Piv i' q Hq) as [_ Next]. specialize (Next p' Hp'). lia.
      * apply lookup_ge_None in Hq. apply lookup_lt_Some in Hp'. lia.
  - intros i j [Hi Hi'] Hj. specialize (Rows i Hi').
    rewrite (lookup_ge_None_2 pc i Hi), forallb_seq in Rows.
    now apply same_spec, Rows.
Qed.

Lemma eliminate_value_id eps r c rrs (d : tensor) :
  (forall rr, rr ∈ rrs -> rr <> r -> Scalar.gt (abs (entry d rr c)) eps = false) ->
  eliminate_value eps r c rrs d = d.
Proof.
  induction rrs as [|rr rest IH]; intros H; simpl; [reflexivity|].
  destruct (Nat.eqb_spec rr r) as [E|N].
  - apply IH. intros x Hx. apply H. now right.
  - rewrite (H rr) by (assumption || left). apply IH.
    intros x Hx. apply H. now right.
Qed.

Lemma scale_row_one (d : tensor) r : scale_row d r 1 = d.
Proof.
  unfold scale_row. apply list_insert_id'. intros Hr.
  rewrite (list_lookup_lookup_total_lt d r Hr). f_equal.
  induction (d !!! r) as [|x row IH]; simpl; [reflexivity|].
  rewrite FloatFacts.mul_1_l. now rewrite <- IH.
Qed.

Lemma clean_entry_idempotent eps x :
  let y := if Scalar.tiny eps x then 0%float else x in
  (if Scalar.tiny eps y then 0%float else y) = y.
Proof.
  simpl. destruct (Scalar.tiny eps x) eqn:T.
  - now destruct (Scalar.tiny eps 0).
  - now rewrite T.
Qed.

Lemma clean_idempotent eps (d : tensor) : clean eps (clean eps d) = clean eps d.
Proof.
  unfold clean. induction d as [|row d IH]; simpl; [reflexivity|].
  f_equal; [|exact IH].
  induction row as [|x row IHr]; simpl; [reflexivity|].
  f_equal; [apply clean_entry_idempotent | exact IHr].
Qed.

(** The tensor [rref] returns has been through the clean-up. *)
Lemma rref_result_clean (s : store) A eps l s' R :
  rref A eps s = (Ok l, s') -> s' !! l = Some R -> clean eps R = R.
Proof.
  unfold rref, bind, write, ret.
  destruct (_as_float_tensor A s) as [[M|e] s1]; [|discriminate].
  destruct (read M s1) as [[d|e] s2]; [|discriminate].
  destruct (sweep eps (rows d) (seq 0 (cols d)) M 0 s2) as [[M'|e] s3]; [|discriminate].
  unfold read. destruct (s3 !! M') as [d'|] eqn:L; [|discriminate].
  intros [= <- <-]. rewrite list_lookup_insert_eq by (now apply lookup_lt_Some in L).
  intros [= <-]. apply clean_idempotent.
Qed.

Lemma abs_zero : abs 0 = 0%float.
Proof. vm_compute. reflexivity. Qed.

Lemma abs_one : abs 1 = 1%float.
Proof. vm_compute. reflexivity. Qed.

Lemma one_ne_zero : 1%float <> 0%float.
Proof.
  intros H. apply (f_equal (fun x => PrimFloat.eqb x 0)) in H.
  vm_compute in H. discriminate.
Qed.

(** On a reduced form the column loop finds every pivot where it is and
    changes nothing. *)
Lemma sweep_value_fixed eps pc (R : tensor) :
  rref_form pc R -> (eps <? 0)%float = false -> (eps <? 1)%float = true ->
  forall k c r,
    c + k = cols R -> r <= length pc ->
    (forall i p, pc !! i = Some p -> (i < r <-> p < c)) ->
    sweep_value eps (rows R) (seq c k) R r = Ok R.
Proof.
  intros (Rect & Len & Piv & Mono & Zero) E0 E1.
  assert (G0 : Scalar.gt (abs 0) eps = false) by (unfold Scalar.gt; now rewrite abs_zero).
  assert (G1 : Scalar.gt (abs 1) eps = true) by (unfold Scalar.gt; now rewrite abs_one).
  induction k as [|k IH]; intros c r Hc Hr Inv; simpl; [reflexivity|].
  destruct (Nat.leb_spec (rows R) r) as [|Hn]; [reflexivity|].
  destruct (decide (pc !! r = Some c)) as [Hp|Hp].
  - (* the pivot of row [r] is in this column *)
    destruct (Piv r c Hp) as (_ & One & _ & Col).
    assert (F : find_pivot_value R c (seq r (rows R - r)) eps None = Some r).
    { pose proof (find_pivot_value_spec R c eps r (rows R) ltac:(lia)) as B.
      destruct (find_pivot_value R c (seq r (rows R - r)) eps None) as [q|];
        simpl in B.
      - destruct B as (Hq & Gq & _). destruct (decide (q = r)) as [->|N]; [reflexivity|].
        unfold mag in Gq. rewrite (Col q) in Gq by (lia || assumption). congruence.
      - specialize (B r ltac:(lia)). unfold mag in B. rewrite One in B. congruence. }
    rewrite F. unfold reduce_column_value. rewrite Nat.eqb_refl, One, G1.
    replace (1 =? 0)%float with false by (vm_compute; reflexivity).
    replace (1 / 1)%float with 1%float by (vm_compute; reflexivity).
    rewrite scale_row_one, eliminate_value_id.
    2:{ intros rr Hrr N. apply list_elem_of_In, in_seq in Hrr.
        rewrite (Col rr) by (lia || assumption). exact G0. }
    destruct (r + 1 =? rows R); [reflexivity|].
    apply IH; [lia| |].
    + apply lookup_lt_Some in Hp. lia.
    + intros i p Hi. split.
      * intros Hlt. destruct (decide (i = r)) as [->|N].
        -- rewrite Hp in Hi. injection Hi as <-. lia.
        -- assert (p < c) by (apply (Inv i p Hi); lia). lia.
      * intros Hlt. destruct (decide (p = c)) as [->|N].
        -- destruct (Nat.lt_trichotomy i r) as [L|[->|L]]; [lia|lia|].
           pose proof (Mono r i c c L Hp Hi). lia.
        -- assert (i < r) by (apply (Inv i p Hi); lia). lia.
  - (* no pivot in this column: the entries from row [r] on are zeros *)
    assert (Z : forall rr, r <= rr < rows R -> entry R rr c = 0%float).
    { intros rr Hrr. destruct (pc !! rr) as [p'|] eqn:Hp'.
      - destruct (Piv rr p' Hp') as (_ & _ & Left & _). apply Left.
        assert (c <= p').
        { destruct (Nat.le_gt_cases c p') as [|L]; [assumption|].
          apply (Inv rr p' Hp') in L. lia. }
        destruct (decide (p' = c)) as [->|N]; [|lia].
        destruct (decide (rr = r)) as [->|N']; [contradiction|].
        destruct (pc !! r) as [p|] eqn:Hpr.
        + pose proof (Mono r rr p c ltac:(lia) Hpr Hp').
          destruct (Nat.le_gt_cases c p) as [|L]; [lia|].
          apply (Inv r p Hpr) in L. lia.
        + apply lookup_ge_None in Hpr. apply lookup_lt_Some in Hp'. lia.
      - apply lookup_ge_None in Hp'. apply Zero; lia. }
    assert (F : find_pivot_value R c (seq r (rows R - r)) eps None = None).
    { pose proof (find_pivot_value_spec R c eps r (rows R) ltac:(lia)) as B.
      destruct (find_pivot_value R c (seq r (rows R - r)) eps None) as [q|];
        [|reflexivity].
      simpl in B. destruct B as (Hq & Gq & _).
      unfold mag in Gq. rewrite (Z q Hq) in Gq. congruence. }
    rewrite F. apply IH; [lia|assumption|].
    intros i p Hi. split.
    + intros Hlt. apply (Inv i p Hi) in Hlt. lia.
    + intros Hlt. destruct (decide (p = c)) as [->|N].
      * destruct (Nat.le_gt_cases r i) as [Hle|]; [|assumption].
        exfalso. destruct (Piv i c Hi) as (_ & One & _).
        apply lookup_lt_Some in Hi.
        rewrite (Z i ltac:(lia)) in One. now apply one_ne_zero.
      * apply (Inv i p Hi). lia.
Qed.

Lemma rref_value_fixed eps pc (R : tensor) :
  rref_form pc R -> (eps <? 0)%float = false -> (eps <? 1)%float = true ->
  clean eps R = R -> rref_value R eps = Ok R.
Proof.
  intros Form E0 E1 C. unfold rref_value.
  rewrite (sweep_value_fixed eps pc R Form E0 E1 (cols R) 0 0);
    [now rewrite C | lia | lia | intros i p Hi; lia].
Qed.

(** C8 fails, by a defect of [rref]: what it returns need not be in reduced
    row echelon form, although it is documented to make every pivot exactly
    [1] and to eliminate the pivot columns, and [rref] of such a result is
    another matrix.  With the default tolerance, on
    [[[1, 1e12], [5e-13, 1]]], the entry [5e-13] is below the tolerance and is
    not eliminated, the second column is then eliminated from the first row
    with the factor [1e12], and [rref] returns [[[0.5, 0], [0, 1]]], with the
    pivot [0.5]; [rref] of that is the identity matrix.  Rounding alone does
    it too: [rref([[49]])] is [[[0.9999999999999999]]], since
    [(1.0 / 49) * 49] is not [1.0], and [rref] of that is [[[1.0]]]. *)
Theorem rref_not_idempotent :
  (let M := nested [[1; 1e12]; [0x1.19799812dea11p-41; 1]]%float in
   exists l s R,
     rref M Scalar.default_eps [] = (Ok l, s)
     /\ s !! l = Some R
     /\ R = [[0.5; 0]; [0; 1]]%float
     /\ result_of (rref (Tensor l) Scalar.default_eps) s = Ok [[1; 0]; [0; 1]]%float
     /\ result_of (rref (Tensor l) Scalar.default_eps) s <> Ok R)
  /\ (exists l s R,
        rref (nested [[49]]%float) Scalar.default_eps [] = (Ok l, s)
        /\ s !! l = Some R
        /\ R = [[0x1.fffffffffffffp-1]]%float
        /\ result_of (rref (Tensor l) Scalar.default_eps) s = Ok [[1]]%float
        /\ result_of (rref (Tensor l) Scalar.default_eps) s <> Ok R).
Proof.
  split.
  - eexists _, _, _. split; [vm_compute; reflexivity|].
    split; [vm_compute; reflexivity|]. split; [vm_compute; reflexivity|].
    split; [vm_compute; reflexivity|].
    intros H.
    apply (f_equal (fun o => match o with
                             | Ok ((x :: _) :: _) => PrimFloat.eqb x 1
                             | _ => false
                             end)) in H.
    vm_compute in H. discriminate.
  - eexists _, _, _. split; [vm_compute; reflexivity|].
    split; [vm_compute; reflexivity|]. split; [vm_compute; reflexivity|].
    split; [vm_compute; reflexivity|].
    intros H.
    apply (f_equal (fun o => match o with
                             | Ok ((x :: _) :: _) => PrimFloat.eqb x 1
                             | _ => false
                             end)) in H.
    vm_compute in H. discriminate.
Qed.

(** ** C9: results are new tensors and the store is left as it was *)

Lemma refines_framed res s v : refines res s v -> framed s res.
Proof.
  destruct v as [d'|e]; simpl.
  - intros [g ->]. split; simpl.
    + intros l Hl. rewrite !lookup_app_l; [reflexivity|lia|].
      rewrite length_app. lia.
    + rewrite !length_app. simpl. lia.
  - intros [g ->]. split; simpl; [|exact I].
    intros l Hl. now rewrite lookup_app_l.
Qed.

Lemma raise_framed s e : framed s (@Raise loc e, s).
Proof. split; simpl; auto. Qed.

(** [rref] returns when the tolerance is not negative. *)
Lemma pydiv_guarded eps pivot s :
  (eps <? 0)%float = false -> Scalar.gt (abs pivot) eps = true ->
  pydiv 1 pivot s = (Ok (1 / pivot)%float, s).
Proof.
  intros E G. unfold pydiv.
  now rewrite (FloatFacts.gt_abs_nonzero eps pivot G E).
Qed.

Lemma reduce_column_value_ok eps n r c p d :
  (eps <? 0)%float = false -> exists d', reduce_column_value eps n r c p d = Ok d'.
Proof.
  intros E. unfold reduce_column_value.
  destruct (Scalar.gt _ eps) eqn:G; [|eauto].
  rewrite (FloatFacts.gt_abs_nonzero eps _ G E). eauto.
Qed.

Lemma sweep_value_ok eps n cs :
  (eps <? 0)%float = false -> forall d r, exists d', sweep_value eps n cs d r = Ok d'.
Proof.
  intros E. induction cs as [|c rest IH]; intros d r; simpl; [eauto|].
  destruct (n <=? r); [eauto|].
  destruct (find_pivot_value _ _ _ _ _) as [p|]; [|apply IH].
  destruct (reduce_column_value_ok eps n r c p d E) as [d' ->].
  destruct (r + 1 =? n); [eauto | apply IH].
Qed.

Lemma rref_value_ok eps d :
  (eps <? 0)%float = false -> exists R, rref_value d eps = Ok R.
Proof.
  intros E. unfold rref_value.
  destruct (sweep_value_ok eps (rows d) (seq 0 (cols d)) E d 0) as [d' ->]. eauto.
Qed.

Lemma lands_allocates res s d' : lands res s d' -> allocates s res d'.
Proof.
  intros [g ->]. exists (length (s ++ g)). simpl.
  split; [reflexivity|]. split; [rewrite length_app; lia | apply lookup_fresh].
Qed.

Lemma rect_arg_value (s : store) A d : rect_store s -> arg_value s A = Some d -> rect d.
Proof.
  intros W HA. destruct A as [l|row more]; simpl in HA.
  - unfold rect_store in W. rewrite Forall_lookup in W. exact (W l d HA).
  - destruct (rectb (row :: more)) eqn:B; [|discriminate].
    injection HA as <-. unfold rectb in B. unfold rect.
    apply Forall_forall. intros x Hx. apply list_elem_of_In in Hx.
    rewrite forallb_forall in B. apply Nat.eqb_eq. now apply B.
Qed.

(** C9.  Each of [rowswap], [rowscale], [rowreplacement] and [rref], run on
    any argument in a store of rectangular tensors, leaves every tensor the
    store held at its location with its contents, the argument among them,
    and the tensor it returns is at a location that did not exist before the
    call.  On valid arguments each of them does return a tensor: the row
    operations on a matrix with row indices in range, [rref] on a matrix
    with a tolerance that is not negative. *)
Theorem results_are_fresh (s : store) (A : arg) (i j : Z)
        (factor j_scale k_scale eps : float) :
  rect_store s ->
  framed s (rowswap A i j s)
  /\ framed s (rowscale A i factor s)
  /\ framed s (rowreplacement A i j j_scale k_scale s)
  /\ framed s (rref A eps s)
  /\ forall d, arg_value s A = Some d ->
       (in_range (rows d) i -> in_range (rows d) j ->
        exists R, allocates s (rowswap A i j s) R)
       /\ (in_range (rows d) i ->
           exists R, allocates s (rowscale A i factor s) R)
       /\ (in_range (rows d) i -> in_range (rows d) j ->
           exists R, allocates s (rowreplacement A i j j_scale k_scale s) R)
       /\ ((eps <? 0)%float = false ->
           exists R, allocates s (rref A eps s) R).
Proof.
  intros W. split; [|split; [|split; [|split]]].
  - destruct (arg_value s A) as [d|] eqn:HA.
    + exact (refines_framed _ _ _ (rowswap_refines s A d i j HA)).
    + destruct (as_float_tensor_err s A HA) as [e E]. unfold rowswap.
      rewrite (bind_raise _ _ _ _ _ E). apply raise_framed.
  - destruct (arg_value s A) as [d|] eqn:HA.
    + exact (refines_framed _ _ _ (rowscale_refines s A d i factor HA)).
    + destruct (as_float_tensor_err s A HA) as [e E]. unfold rowscale.
      rewrite (bind_raise _ _ _ _ _ E). apply raise_framed.
  - destruct (arg_value s A) as [d|] eqn:HA.
    + exact (refines_framed _ _ _ (rowreplacement_refines s A d i j j_scale k_scale HA)).
    + destruct (as_float_tensor_err s A HA) as [e E]. unfold rowreplacement.
      rewrite (bind_raise _ _ _ _ _ E). apply raise_framed.
  - destruct (arg_value s A) as [d|] eqn:HA.
    + exact (refines_framed _ _ _
               (rref_refines s A d eps HA (rect_arg_value s A d W HA))).
    + destruct (as_float_tensor_err s A HA) as [e E]. unfold rref.
      rewrite (bind_raise _ _ _ _ _ E). apply raise_framed.
  - intros d HA. split; [|split; [|split]].
    + intros Ri Rj.
      destruct (norm_index_is_Some _ _ Ri) as (ki & Ei & _).
      destruct (norm_index_is_Some _ _ Rj) as (kj & Ej & _).
      exists (swap_rows d ki kj). apply lands_allocates.
      exact (rowswap_run s A d i j ki kj HA Ei Ej).
    + intros Ri.
      destruct (norm_index_is_Some _ _ Ri) as (ki & Ei & _).
      exists (scale_row d ki factor). apply lands_allocates.
      exact (rowscale_run s A d i ki factor HA Ei).
    + intros Ri Rj.
      destruct (norm_index_is_Some _ _ Ri) as (ki & Ei & _).
      destruct (norm_index_is_Some _ _ Rj) as (kj & Ej & _).
      exists (replace_row d ki kj j_scale k_scale). apply lands_allocates.
      exact (rowreplacement_run s A d i j ki kj j_scale k_scale HA Ei Ej).
    + intros E.
      pose proof (rref_refines s A d eps HA (rect_arg_value s A d W HA)) as Rf.
      destruct (rref_value_ok eps d E) as [R HR]. rewrite HR in Rf.
      exists R. now apply lands_allocates.
Qed.

Lemma results_are_fresh_witness :
  framed [example_M] (rowswap (Tensor 0) 0 1 [example_M])
  /\ framed [example_M] (rowscale (Tensor 0) 0 2 [example_M])
  /\ framed [example_M] (rowreplacement (Tensor 0) 0 1 1 1 [example_M])
  /\ framed [example_M] (rref (Tensor 0) Scalar.default_eps [example_M])
  /\ (exists R, allocates [example_M] (rowswap (Tensor 0) 0 1 [example_M]) R)
  /\ (exists R, allocates [example_M] (rowscale (Tensor 0) 0 2 [example_M]) R)
  /\ (exists R, allocates [example_M] (rowreplacement (Tensor 0) 0 1 1 1 [example_M]) R)
  /\ (exists R, allocates [example_M] (rref (Tensor 0) Scalar.default_eps [example_M]) R).
Proof.
  destruct (results_are_fresh [example_M] (Tensor 0) 0 1 2 1 1 Scalar.default_eps)
    as (F1 & F2 & F3 & F4 & Ret).
  - repeat constructor.
  - destruct (Ret example_M eq_refl) as (R1 & R2 & R3 & R4).
    split; [exact F1|]. split; [exact F2|]. split; [exact F3|]. split; [exact F4|].
    split; [|split; [|split]].
    + apply R1; unfold in_range; simpl; lia.
    + apply R2; unfold in_range; simpl; lia.
    + apply R3; unfold in_range; simpl; lia.
    + apply R4. vm_compute. reflexivity.
Defined.

(** ** C10: the scaling step never divides by zero *)

(** C10.  Let [eps > 0].  Whenever the pivot search, on any tensor, has
    chosen a row for the column [c] and the cursor [r], the entry found at
    [(r, c)] once that row is swapped in, which is the divisor of the
    scaling step, has a magnitude that exceeds [eps], and [1.0 / pivot] is
    computed without [ZeroDivisionError].  Hence [rref] returns a tensor for
    every rectangular argument. *)
Theorem scaling_never_divides_by_zero (s : store) (A : arg) (d : tensor) (eps : float) :
  arg_value s A = Some d -> rect d -> (0 <? eps)%float = true ->
  (forall (d0 : tensor) (r c q : nat) (s' : store),
      r < rows d0 -> best d0 c eps r (rows d0) (Some q) ->
      let pivot := entry (if q =? r then d0 else swap_rows d0 r q) r c in
      Scalar.gt (abs pivot) eps = true
      /\ (pivot =? 0)%float = false
      /\ pydiv 1 pivot s' = (Ok (1 / pivot)%float, s'))
  /\ exists R, result_of (rref A eps) s = Ok R.
Proof.
  intros HA R E. apply FloatFacts.pos_not_neg in E. split.
  - intros d0 r c q s' Hr (Hq & G & _). simpl.
    unfold rows in *. rewrite entry_swap_rows by lia.
    fold (mag d0 c q). split; [assumption|].
    split; [exact (FloatFacts.gt_abs_nonzero eps _ G E)|].
    now apply (pydiv_guarded eps).
  - rewrite (refines_result _ _ _ (rref_refines s A d eps HA R)).
    now apply rref_value_ok.
Qed.

Lemma scaling_never_divides_by_zero_witness :
  (forall (d0 : tensor) (r c q : nat) (s' : store),
      r < rows d0 -> best d0 c Scalar.default_eps r (rows d0) (Some q) ->
      let pivot := entry (if q =? r then d0 else swap_rows d0 r q) r c in
      Scalar.gt (abs pivot) Scalar.default_eps = true
      /\ (pivot =? 0)%float = false
      /\ pydiv 1 pivot s' = (Ok (1 / pivot)%float, s'))
  /\ exists R, result_of (rref (Tensor 0) Scalar.default_eps) [example_M] = Ok R.
Proof.
  apply (scaling_never_divides_by_zero [example_M] (Tensor 0) example_M).
  - reflexivity.
  - repeat constructor.
  - vm_compute. reflexivity.
Defined.

(** * Further properties of the row operations *)

Lemma swap_rows_comm (d : tensor) ki kj : swap_rows d ki kj = swap_rows d kj ki.
Proof.
  unfold swap_rows. destruct (decide (ki = kj)) as [->|N]; [reflexivity|].
  now rewrite list_insert_insert_ne by congruence.
Qed.

Lemma swap_rows_same (d : tensor) k : swap_rows d k k = d.
Proof.
  unfold swap_rows. rewrite list_insert_insert_eq.
  apply list_insert_id'. intros H. now apply list_lookup_lookup_total_lt.
Qed.

Lemma arg_error_runs (s : store) A :
  arg_value s A = None ->
  exists e, forall i j factor j_scale k_scale eps,
      rowswap A i j s = (Raise e, s)
      /\ rowscale A i factor s = (Raise e, s)
      /\ rowreplacement A i j j_scale k_scale s = (Raise e, s)
      /\ rref A eps s = (Raise e, s).
Proof.
  intros HA. destruct (as_float_tensor_err s A HA) as [e E]. exists e. intros.
  unfold rowswap, rowscale, rowreplacement, rref.
  now rewrite !(bind_raise _ _ _ _ _ E).
Qed.

(** X1.  [rowswap(A, i, j)] puts the row [j] of [A] at the position of [i] and the
    row [i] at the position of [j], and leaves the other rows and the number
    of rows as they are; negative indices count from the last row. *)
Theorem rowswap_exchanges_rows (s : store) (A : arg) (d : tensor) (i j : Z) :
  arg_value s A = Some d -> in_range (rows d) i -> in_range (rows d) j ->
  exists R, result_of (rowswap A i j) s = Ok R
    /\ rows R = rows d
    /\ R !! position (rows d) i = d !! position (rows d) j
    /\ R !! position (rows d) j = d !! position (rows d) i
    /\ forall k, k <> position (rows d) i -> k <> position (rows d) j -> R !! k = d !! k.
Proof.
  intros HA Hi Hj.
  destruct (norm_index_position _ _ Hi) as [Ei Li].
  destruct (norm_index_position _ _ Hj) as [Ej Lj].
  rewrite (refines_result _ _ _ (rowswap_refines s A d i j HA)).
  unfold rowswap_value. rewrite Ei, Ej.
  set (ki := position (rows d) i) in *. set (kj := position (rows d) j) in *.
  unfold rows in *.
  eexists. split; [reflexivity|]. unfold swap_rows.
  split; [now rewrite !length_insert|]. split; [|split].
  - destruct (decide (ki = kj)) as [->|N].
    + rewrite list_lookup_insert_eq by (rewrite length_insert; lia).
      symmetry. now apply list_lookup_lookup_total_lt.
    + rewrite list_lookup_insert_ne by congruence.
      rewrite list_lookup_insert_eq by lia.
      symmetry. now apply list_lookup_lookup_total_lt.
  - rewrite list_lookup_insert_eq by (rewrite length_insert; lia).
    symmetry. now apply list_lookup_lookup_total_lt.
  - intros k Ni Nj. now rewrite !list_lookup_insert_ne by congruence.
Qed.

Lemma rowswap_exchanges_rows_witness :
  exists R, result_of (rowswap (Tensor 0) (-1) 0) [example_M] = Ok R
    /\ rows R = rows example_M
    /\ R !! position (rows example_M) (-1) = example_M !! position (rows example_M) 0
    /\ R !! position (rows example_M) 0 = example_M !! position (rows example_M) (-1)
    /\ forall k, k <> position (rows example_M) (-1) -> k <> position (rows example_M) 0 ->
                 R !! k = example_M !! k.
Proof.
  apply (rowswap_exchanges_rows [example_M] (Tensor 0) example_M (-1) 0 eq_refl);
    unfold in_range; simpl; lia.
Defined.

(** X2.  Swapping a row with itself, under whatever two indices address it,
    returns a tensor equal to the argument. *)
Theorem rowswap_same_row (s : store) (A : arg) (d : tensor) (i j : Z) :
  arg_value s A = Some d -> in_range (rows d) i -> in_range (rows d) j ->
  position (rows d) i = position (rows d) j ->
  result_of (rowswap A i j) s = Ok d.
Proof.
  intros HA Hi Hj E.
  destruct (norm_index_position _ _ Hi) as [Ei _].
  destruct (norm_index_position _ _ Hj) as [Ej _].
  rewrite (refines_result _ _ _ (rowswap_refines s A d i j HA)).
  unfold rowswap_value. rewrite Ei, Ej, E. now rewrite swap_rows_same.
Qed.

Lemma rowswap_same_row_witness :
  result_of (rowswap (Tensor 0) (-1) 2) [example_M] = Ok example_M.
Proof.
  apply (rowswap_same_row [example_M] (Tensor 0) example_M (-1) 2 eq_refl).
  - unfold in_range. simpl. lia.
  - unfold in_range. simpl. lia.
  - reflexivity.
Defined.

(** X3.  The order of the two indices of [rowswap] does not matter, for the tensor
    returned and for the exception raised, whatever the argument and the
    indices are. *)
Theorem rowswap_symmetric (s : store) (A : arg) (i j : Z) :
  result_of (rowswap A i j) s = result_of (rowswap A j i) s.
Proof.
  destruct (arg_value s A) as [d|] eqn:HA.
  - rewrite (refines_result _ _ _ (rowswap_refines s A d i j HA)).
    rewrite (refines_result _ _ _ (rowswap_refines s A d j i HA)).
    unfold rowswap_value.
    destruct (norm_index (rows d) i) as [ki|], (norm_index (rows d) j) as [kj|];
      rewrite ?(index_error_swap (rows d) i j); try reflexivity.
    now rewrite swap_rows_comm.
  - destruct (arg_error_runs s A HA) as [e E].
    destruct (E i j 0%float 0%float 0%float 0%float) as [E1 _].
    destruct (E j i 0%float 0%float 0%float 0%float) as [E2 _].
    unfold result_of. now rewrite E1, E2.
Qed.

(** X4.  On an argument held in double precision (a nested sequence or a
    float64 tensor), [rowscale(A, i, factor)] multiplies every entry of the
    row that [i] addresses by [factor], in binary64, and leaves the other
    rows and the number of rows as they are. *)
Theorem rowscale_scales_row (s : store) (A : arg) (d : tensor) (i : Z) (factor : float) :
  arg_value s A = Some d -> in_range (rows d) i ->
  exists R, result_of (rowscale A i factor) s = Ok R
    /\ rows R = rows d
    /\ R !! position (rows d) i
       = Some (map (fun x => factor * x)%float (d !!! position (rows d) i))
    /\ forall k, k <> position (rows d) i -> R !! k = d !! k.
Proof.
  intros HA Hi. destruct (norm_index_position _ _ Hi) as [Ei Li].
  rewrite (refines_result _ _ _ (rowscale_refines s A d i factor HA)).
  unfold rowscale_value. rewrite Ei. unfold rows in *.
  eexists. split; [reflexivity|]. unfold scale_row.
  split; [now rewrite length_insert|]. split.
  - now rewrite list_lookup_insert_eq by lia.
  - intros k N. now rewrite list_lookup_insert_ne by congruence.
Qed.

Lemma rowscale_scales_row_witness :
  exists R, result_of (rowscale (Tensor 0) (-3) 2) [example_M] = Ok R
    /\ rows R = rows example_M
    /\ R !! position (rows example_M) (-3)
       = Some (map (fun x => 2 * x)%float (example_M !!! position (rows example_M) (-3)))
    /\ forall k, k <> position (rows example_M) (-3) -> R !! k = example_M !! k.
Proof.
  apply (rowscale_scales_row [example_M] (Tensor 0) example_M (-3) 2 eq_refl).
  unfold in_range. simpl. lia.
Defined.

(** X5.  Scaling a row by [1.0] returns a tensor equal to the argument: the
    product of [1.0] and a float is that float, whatever it is. *)
Theorem rowscale_by_one (s : store) (A : arg) (d : tensor) (i : Z) :
  arg_value s A = Some d -> in_range (rows d) i ->
  result_of (rowscale A i 1) s = Ok d.
Proof.
  intros HA Hi. destruct (norm_index_position _ _ Hi) as [Ei Li].
  rewrite (refines_result _ _ _ (rowscale_refines s A d i 1%float HA)).
  unfold rowscale_value. rewrite Ei. now rewrite scale_row_one.
Qed.

Lemma rowscale_by_one_witness :
  result_of (rowscale (Tensor 0) 1 1) [example_M] = Ok example_M.
Proof.
  apply (rowscale_by_one [example_M] (Tensor 0) example_M 1 eq_refl).
  unfold in_range. simpl. lia.
Defined.

Lemma mul_m1_l x : (-1 * x)%float = (- x)%float.
Proof.
  apply Prim2SF_inj. rewrite FloatAxioms.mul_spec, FloatAxioms.opp_spec.
  replace (Prim2SF (-1)) with (S754_finite true 4503599627370496 (-52))
    by (vm_compute; reflexivity).
  pose proof (Prim2SF_valid x) as V.
  destruct (Prim2SF x) as [sx|sx| |sx m e].
  - reflexivity.
  - reflexivity.
  - reflexivity.
  - unfold SF64mul, SFmul, SFopp. cbn [xorb].
    replace (if sx then false else true) with (negb sx) by now destruct sx.
    now apply FloatFacts.round_exact.
Qed.

Lemma opp_involutive x : (- - x)%float = x.
Proof.
  apply Prim2SF_inj. rewrite !FloatAxioms.opp_spec.
  destruct (Prim2SF x) as [sx|sx| |sx m e]; simpl; now rewrite ?negb_involutive.
Qed.

Lemma scale_row_negate_twice (d : tensor) k :
  k < length d -> scale_row (scale_row d k (-1)) k (-1) = d.
Proof.
  intros Hk. unfold scale_row.
  rewrite list_lookup_total_insert_eq by lia. rewrite list_insert_insert_eq.
  apply list_insert_id'. intros _.
  rewrite (list_lookup_lookup_total_lt d k Hk). f_equal.
  induction (d !!! k) as [|x row IH]; simpl; [reflexivity|].
  rewrite !mul_m1_l, opp_involutive. now rewrite <- IH.
Qed.

(** X6.  A round trip: scaling a row by [-1.0] and scaling the same row of the
    result by [-1.0] gives back a tensor equal to the argument, exactly. *)
Theorem rowscale_negation_round_trip (s : store) (A : arg) (d : tensor) (i : Z) :
  arg_value s A = Some d -> in_range (rows d) i ->
  exists l1 s1, rowscale A i (-1) s = (Ok l1, s1)
                /\ result_of (rowscale (Tensor l1) i (-1)) s1 = Ok d.
Proof.
  intros HA Hi. destruct (norm_index_position _ _ Hi) as [Ei Li].
  destruct (rowscale_run s A d i _ (-1)%float HA Ei) as [g E].
  eexists _, _. split; [exact E|].
  set (d1 := scale_row d (position (rows d) i) (-1)).
  rewrite (refines_result _ _ _
             (rowscale_refines _ _ d1 i (-1)%float (top_value (s ++ g) d1))).
  unfold rowscale_value.
  assert (L : rows d1 = rows d) by (unfold d1, scale_row, rows; now rewrite length_insert).
  rewrite L, Ei. f_equal. unfold rows in *. now apply scale_row_negate_twice.
Qed.

Lemma rowscale_negation_round_trip_witness :
  exists l1 s1, rowscale (Tensor 0) 2 (-1) [example_M] = (Ok l1, s1)
                /\ result_of (rowscale (Tensor l1) 2 (-1)) s1 = Ok example_M.
Proof.
  apply (rowscale_negation_round_trip [example_M] (Tensor 0) example_M 2 eq_refl).
  unfold in_range. simpl. lia.
Defined.

(** X7.  [rowreplacement(A, i, j, j_scale, k_scale)] on a rectangular argument
    held in double precision (a nested sequence or a float64 tensor): every
    entry of the row of [i] becomes [j_scale] times itself plus [k_scale]
    times the entry of the row of [j] in its column, computed in binary64,
    and every row but the row of [i] is kept, the row of [j] among them when
    it is another row. *)
Theorem rowreplacement_keeps_other_rows (s : store) (A : arg) (d : tensor) (i j : Z)
        (j_scale k_scale : float) :
  arg_value s A = Some d -> rect d ->
  in_range (rows d) i -> in_range (rows d) j ->
  exists R, result_of (rowreplacement A i j j_scale k_scale) s = Ok R
    /\ rows R = rows d
    /\ length (R !!! position (rows d) i) = cols d
    /\ (forall c, c < cols d ->
          entry R (position (rows d) i) c
          = (j_scale * entry d (position (rows d) i) c
             + k_scale * entry d (position (rows d) j) c)%float)
    /\ forall k, k <> position (rows d) i -> R !! k = d !! k.
Proof.
  intros HA Rect Hi Hj. apply shape_rect in Rect.
  destruct (norm_index_position _ _ Hi) as [Ei Li].
  destruct (norm_index_position _ _ Hj) as [Ej Lj].
  rewrite (refines_result _ _ _
             (rowreplacement_refines s A d i j j_scale k_scale HA)).
  unfold rowreplacement_value. rewrite Ei, Ej.
  set (ki := position (rows d) i) in *. set (kj := position (rows d) j) in *.
  pose proof (shape_lookup _ _ d ki Rect Li) as Lki.
  pose proof (shape_lookup _ _ d kj Rect Lj) as Lkj.
  unfold rows in *.
  eexists. split; [reflexivity|]. unfold replace_row.
  split; [now rewrite length_insert|].
  rewrite list_lookup_total_insert_eq by lia. split; [|split].
  - now apply combine_rows_length.
  - intros c Hc. unfold entry. rewrite list_lookup_total_insert_eq by lia.
    apply combine_rows_lookup; lia.
  - intros k N. now rewrite list_lookup_insert_ne by congruence.
Qed.

Lemma rowreplacement_keeps_other_rows_witness :
  exists R, result_of (rowreplacement (Tensor 0) 0 1 1 (-1)) [example_M] = Ok R
    /\ rows R = rows example_M
    /\ length (R !!! position (rows example_M) 0) = cols example_M
    /\ (forall c, c < cols example_M ->
          entry R (position (rows example_M) 0) c
          = (1 * entry example_M (position (rows example_M) 0) c
             + -1 * entry example_M (position (rows example_M) 1) c)%float)
    /\ forall k, k <> position (rows example_M) 0 -> R !! k = example_M !! k.
Proof.
  apply (rowreplacement_keeps_other_rows [example_M] (Tensor 0) example_M 0 1 1 (-1) eq_refl).
  - repeat constructor.
  - unfold in_range. simpl. lia.
  - unfold in_range. simpl. lia.
Defined.

Lemma norm_index_wrap n i :
  (- Z.of_nat n <= i < 0)%Z -> norm_index n i = norm_index n (Z.of_nat n + i).
Proof.
  intros H. rewrite norm_index_neg by lia.
  rewrite norm_index_nonneg by lia. reflexivity.
Qed.

(** X8.  An index [i] of [[-rows, 0)] stands for the index [rows + i] in each of
    the three operations, in either index of [rowswap] and
    [rowreplacement]. *)
Theorem negative_index_counts_from_the_end (s : store) (A : arg) (d : tensor) (i j : Z)
        (factor j_scale k_scale : float) :
  arg_value s A = Some d -> (- Z.of_nat (rows d) <= i < 0)%Z ->
  let i' := (Z.of_nat (rows d) + i)%Z in
  result_of (rowswap A i j) s = result_of (rowswap A i' j) s
  /\ result_of (rowswap A j i) s = result_of (rowswap A j i') s
  /\ result_of (rowscale A i factor) s = result_of (rowscale A i' factor) s
  /\ result_of (rowreplacement A i j j_scale k_scale) s
     = result_of (rowreplacement A i' j j_scale k_scale) s
  /\ result_of (rowreplacement A j i j_scale k_scale) s
     = result_of (rowreplacement A j i' j_scale k_scale) s.
Proof.
  intros HA Hi i'.
  rewrite !(refines_result _ _ _ (rowswap_refines s A d _ _ HA)).
  rewrite !(refines_result _ _ _ (rowscale_refines s A d _ _ HA)).
  rewrite !(refines_result _ _ _ (rowreplacement_refines s A d _ _ _ _ HA)).
  unfold rowswap_value, rowscale_value, rowreplacement_value, index_error, i'.
  cbn [forallb].
  rewrite <- (norm_index_wrap _ _ Hi), (norm_index_neg _ _ Hi).
  repeat split; reflexivity.
Qed.

Lemma negative_index_counts_from_the_end_witness :
  let i' := (Z.of_nat (rows example_M) + -1)%Z in
  result_of (rowswap (Tensor 0) (-1) 0) [example_M]
  = result_of (rowswap (Tensor 0) i' 0) [example_M]
  /\ result_of (rowswap (Tensor 0) 0 (-1)) [example_M]
     = result_of (rowswap (Tensor 0) 0 i') [example_M]
  /\ result_of (rowscale (Tensor 0) (-1) 2) [example_M]
     = result_of (rowscale (Tensor 0) i' 2) [example_M]
  /\ result_of (rowreplacement (Tensor 0) (-1) 0 1 1) [example_M]
     = result_of (rowreplacement (Tensor 0) i' 0 1 1) [example_M]
  /\ result_of (rowreplacement (Tensor 0) 0 (-1) 1 1) [example_M]
     = result_of (rowreplacement (Tensor 0) 0 i' 1 1) [example_M].
Proof.
  apply (negative_index_counts_from_the_end [example_M] (Tensor 0) example_M (-1) 0
           2 1 1 eq_refl).
  simpl. lia.
Defined.

(** * Further properties of [rref] *)

Lemma shape_clean eps n m (d : tensor) : shape n m d -> shape n m (clean eps d).
Proof.
  intros [L F]. unfold clean. split; [now rewrite length_map|].
  apply Forall_fmap. eapply Forall_impl; [exact F|].
  intros row H. simpl. now rewrite length_map.
Qed.

Lemma shape_sweep_value eps n m cs : forall (d : tensor) r d',
  shape n m d -> sweep_value eps n cs d r = Ok d' -> shape n m d'.
Proof.
  induction cs as [|c rest IH]; intros d r d' S; simpl.
  - now intros [= <-].
  - destruct (Nat.leb_spec n r) as [|Hr]; [now intros [= <-]|].
    destruct (find_pivot_value d c (seq r (n - r)) eps None) as [p|] eqn:P;
      [|now apply IH].
    apply find_pivot_value_range in P.
    pose proof (shape_reduce_column_value eps n m r c p d) as S'.
    destruct (reduce_column_value eps n r c p d) as [d1|e]; [|discriminate].
    specialize (S' d1 S Hr ltac:(lia) eq_refl).
    destruct (r + 1 =? n); [now intros [= <-] | now apply IH].
Qed.

Lemma sweep_value_raises eps n cs : forall (d : tensor) r e,
  sweep_value eps n cs d r = Raise e -> e = ZeroDivisionError.
Proof.
  induction cs as [|c rest IH]; intros d r e; simpl; [discriminate|].
  destruct (n <=? r); [discriminate|].
  destruct (find_pivot_value d c (seq r (n - r)) eps None) as [p|]; [|apply IH].
  unfold reduce_column_value.
  destruct (Scalar.gt _ eps).
  - destruct (_ =? 0)%float; [now intros [= <-]|].
    destruct (r + 1 =? n); [discriminate | apply IH].
  - destruct (r + 1 =? n); [discriminate | apply IH].
Qed.

(** X10.  [rref] returns a tensor of the shape of its argument. *)
Theorem rref_keeps_shape (s : store) (A : arg) (d R : tensor) (eps : float) :
  arg_value s A = Some d -> rect d ->
  result_of (rref A eps) s = Ok R ->
  rows R = rows d /\ Forall (fun row => length row = cols d) R.
Proof.
  intros HA Rect. apply shape_rect in Rect.
  rewrite (refines_result _ _ _ (rref_refines s A d eps HA (proj2 (shape_rect d) Rect))).
  unfold rref_value.
  destruct (sweep_value eps (rows d) (seq 0 (cols d)) d 0) as [d'|e] eqn:W;
    [|discriminate].
  intros [= <-]. apply (shape_clean eps), (shape_sweep_value _ _ _ _ _ _ _ Rect W).
Qed.

Lemma rref_keeps_shape_witness :
  rows [[1; 2]]%float = rows [[2; 4]]%float
  /\ Forall (fun row => length row = cols [[2; 4]]%float) [[1; 2]]%float.
Proof.
  apply (rref_keeps_shape [] (nested [[2; 4]]%float) [[2; 4]]%float [[1; 2]]%float
           Scalar.default_eps).
  - reflexivity.
  - repeat constructor.
  - vm_compute. reflexivity.
Defined.

(** X11.  On a rectangular argument [rref] raises nothing but
    [ZeroDivisionError]: no index it computes is out of range. *)
Theorem rref_raises_only_zero_division (s : store) (A : arg) (d : tensor)
        (eps : float) (e : exn) :
  arg_value s A = Some d -> rect d ->
  result_of (rref A eps) s = Raise e -> e = ZeroDivisionError.
Proof.
  intros HA Rect.
  rewrite (refines_result _ _ _ (rref_refines s A d eps HA Rect)).
  unfold rref_value.
  destruct (sweep_value eps (rows d) (seq 0 (cols d)) d 0) as [d'|e'] eqn:W;
    [discriminate|].
  intros [= <-]. exact (sweep_value_raises _ _ _ _ _ _ W).
Qed.

Lemma rref_raises_only_zero_division_witness :
  ZeroDivisionError = ZeroDivisionError.
Proof.
  apply (rref_raises_only_zero_division [] (nested [[0]]%float) [[0]]%float (-1)%float).
  - reflexivity.
  - repeat constructor.
  - vm_compute. reflexivity.
Defined.

Lemma clean_fixed_cleaned eps (d : tensor) : clean eps d = d -> cleaned eps d.
Proof.
  unfold clean, cleaned. induction d as [|row d IH]; simpl; intros H; [constructor|].
  injection H as Hrow Hd. constructor; [|now apply IH].
  clear IH Hd. induction row as [|x row IHr]; simpl in *; [constructor|].
  injection Hrow as Hx Hrow. constructor; [|now apply IHr].
  destruct (Scalar.tiny eps x); [now left | now right].
Qed.

(** X12.  No entry of the tensor [rref] returns has a magnitude below [eps], the
    entries [0.0] apart: whatever the argument, every entry of the result is
    [0.0] or fails the test [abs(x) < eps]. *)
Theorem rref_result_is_cleaned (s : store) (A : arg) (eps : float) (R : tensor) :
  result_of (rref A eps) s = Ok R -> cleaned eps R.
Proof.
  unfold result_of. destruct (rref A eps s) as [[l|e] s'] eqn:Run; [|discriminate].
  destruct (s' !! l) as [R'|] eqn:L; [|discriminate]. intros [= <-].
  apply clean_fixed_cleaned. exact (rref_result_clean s A eps l s' R' Run L).
Qed.

Lemma rref_result_is_cleaned_witness : cleaned Scalar.default_eps [[1; 2]]%float.
Proof.
  apply (rref_result_is_cleaned [] (nested [[2; 4]]%float) Scalar.default_eps).
  vm_compute. reflexivity.
Defined.

Lemma find_pivot_value_keep (d : tensor) c rrs : forall mx p,
  (forall rr, rr ∈ rrs -> Scalar.gt (mag d c rr) mx = false) ->
  find_pivot_value d c rrs mx p = p.
Proof.
  induction rrs as [|rr rest IH]; intros mx p H; simpl; [reflexivity|].
  fold (mag d c rr). rewrite (H rr) by left.
  apply IH. intros x Hx. apply H. now right.
Qed.

Lemma entry_negligible eps n m (d : tensor) rr c :
  negligible eps d -> shape n m d -> rr < n -> c < m ->
  Scalar.gt (abs (entry d rr c)) eps = false.
Proof.
  intros N S Hr Hc. pose proof (shape_lookup n m d rr S Hr) as L.
  destruct S as [Ld _]. unfold negligible in N. rewrite Forall_lookup in N.
  assert (Hrow : d !! rr = Some (d !!! rr)) by (apply list_lookup_lookup_total_lt; lia).
  specialize (N rr _ Hrow). rewrite Forall_lookup in N.
  apply (N c). apply list_lookup_lookup_total_lt. lia.
Qed.

Lemma sweep_value_negligible eps n m (d : tensor) cs : forall r,
  negligible eps d -> shape n m d -> Forall (fun c => c < m) cs ->
  sweep_value eps n cs d r = Ok d.
Proof.
  intros r N S. revert r.
  induction cs as [|c rest IH]; intros r F; simpl; [reflexivity|].
  inversion F as [|? ? Hc F']; subst.
  destruct (Nat.leb_spec n r) as [|Hr]; [reflexivity|].
  rewrite find_pivot_value_keep; [now apply IH|].
  intros rr Hrr. apply list_elem_of_In, in_seq in Hrr.
  apply (entry_negligible eps n m); auto. lia.
Qed.

Lemma rref_value_negligible eps (d : tensor) :
  rect d -> negligible eps d -> rref_value d eps = Ok (clean eps d).
Proof.
  intros R N. apply shape_rect in R. unfold rref_value.
  now rewrite (sweep_value_negligible eps _ _ d _ 0 N R (Forall_seq_cols _)).
Qed.

(** X13.  When no entry of the argument has a magnitude that exceeds [eps], no
    column has a pivot and [rref] returns the clean-up of its argument: the
    entries below [eps] in magnitude set to [0.0], the others as they are. *)
Theorem rref_without_pivot (s : store) (A : arg) (d : tensor) (eps : float) :
  arg_value s A = Some d -> rect d -> negligible eps d ->
  result_of (rref A eps) s = Ok (clean eps d).
Proof.
  intros HA R N.
  rewrite (refines_result _ _ _ (rref_refines s A d eps HA R)).
  now apply rref_value_negligible.
Qed.

Lemma rref_without_pivot_witness :
  result_of (rref (nested [[0x1p-50; 0]; [0; -0x1p-60]]%float) Scalar.default_eps) []
  = Ok (clean Scalar.default_eps [[0x1p-50; 0]; [0; -0x1p-60]]%float).
Proof.
  apply (rref_without_pivot [] (nested [[0x1p-50; 0]; [0; -0x1p-60]]%float)).
  - reflexivity.
  - repeat constructor.
  - repeat constructor.
Defined.

Lemma rect_zeros n m : rect (zeros n m).
Proof.
  unfold rect, zeros. destruct n as [|n]; [constructor|].
  simpl. rewrite length_replicate. constructor; [now rewrite length_replicate|].
  apply Forall_replicate. now rewrite length_replicate.
Qed.

Lemma entry_zeros n m i j : i < n -> j < m -> entry (zeros n m) i j = 0%float.
Proof.
  intros Hi Hj. unfold entry, zeros.
  rewrite lookup_total_replicate_2 by assumption.
  now rewrite lookup_total_replicate_2.
Qed.

Lemma clean_zeros eps n m : clean eps (zeros n m) = zeros n m.
Proof.
  unfold clean, zeros.
  change (map ?f ?l) with (f <$> l). rewrite fmap_replicate. f_equal.
  change (map ?f ?l) with (f <$> l). rewrite fmap_replicate. f_equal.
  now destruct (Scalar.tiny eps 0).
Qed.

(** X14.  [rref] of a matrix of zeros, of any shape and with any tolerance that is
    not negative, returns a matrix of zeros of that shape. *)
Theorem rref_zero_matrix (s : store) (A : arg) (n m : nat) (eps : float) :
  arg_value s A = Some (zeros n m) -> (eps <? 0)%float = false ->
  result_of (rref A eps) s = Ok (zeros n m).
Proof.
  intros HA E.
  rewrite (refines_result _ _ _ (rref_refines s A _ eps HA (rect_zeros n m))).
  rewrite rref_value_negligible; [now rewrite clean_zeros | apply rect_zeros |].
  unfold negligible, zeros. apply Forall_replicate, Forall_replicate.
  unfold Scalar.gt. now rewrite abs_zero.
Qed.

Lemma rref_zero_matrix_witness :
  result_of (rref (Tensor 0) Scalar.default_eps) [zeros 2 3] = Ok (zeros 2 3).
Proof.
  apply (rref_zero_matrix [zeros 2 3] (Tensor 0) 2 3 Scalar.default_eps).
  - reflexivity.
  - vm_compute. reflexivity.
Defined.

(** X15.  With a negative tolerance a zero counts as a pivot, and [rref] of a
    matrix of zeros with at least one row and one column raises
    [ZeroDivisionError] at [1.0 / pivot]. *)
Theorem rref_negative_tolerance_divides_by_zero (s : store) (A : arg) (n m : nat)
        (eps : float) :
  arg_value s A = Some (zeros (S n) (S m)) -> (eps <? 0)%float = true ->
  result_of (rref A eps) s = Raise ZeroDivisionError.
Proof.
  intros HA E.
  rewrite (refines_result _ _ _ (rref_refines s A _ eps HA (rect_zeros _ _))).
  unfold rref_value.
  replace (rows (zeros (S n) (S m))) with (S n)
    by (unfold rows, zeros; now rewrite length_replicate).
  replace (cols (zeros (S n) (S m))) with (S m)
    by (unfold cols, zeros; simpl; now rewrite length_replicate).
  assert (G : Scalar.gt (abs 0) eps = true) by (unfold Scalar.gt; now rewrite abs_zero).
  assert (F : find_pivot_value (zeros (S n) (S m)) 0 (seq 0 (S n - 0)) eps None = Some 0).
  { replace (S n - 0) with (S n) by lia.
    change (seq 0 (S n)) with (0 :: seq 1 n). cbn [find_pivot_value].
    rewrite (entry_zeros (S n) (S m) 0 0) by lia. rewrite G.
    apply find_pivot_value_keep. intros rr Hrr.
    apply list_elem_of_In, in_seq in Hrr. unfold mag.
    rewrite (entry_zeros (S n) (S m) rr 0) by lia.
    unfold Scalar.gt. apply FloatFacts.ltb_irrefl. }
  change (seq 0 (S m)) with (0 :: seq 1 m). cbn [sweep_value].
  change (S n <=? 0) with false. cbv iota. rewrite F. unfold reduce_column_value.
  change (0 =? 0) with true. cbv iota.
  rewrite (entry_zeros (S n) (S m) 0 0) by lia. rewrite G.
  replace (0 =? 0)%float with true by (vm_compute; reflexivity). reflexivity.
Qed.

Lemma rref_negative_tolerance_divides_by_zero_witness :
  result_of (rref (Tensor 0) (-1)) [zeros 2 2] = Raise ZeroDivisionError.
Proof.
  apply (rref_negative_tolerance_divides_by_zero [zeros 2 2] (Tensor 0) 1 1 (-1)%float).
  - reflexivity.
  - vm_compute. reflexivity.
Defined.

(** Scaling and elimination, the part of the column step after the swap, run
    on any tensor of the store. *)
Lemma scale_eliminate_run eps n m r c (s : store) M (d1 : tensor) :
  s !! M = Some d1 -> shape n m d1 -> r < n -> c < m ->
  result_of
    (let! pivot := item M (Z.of_nat r) (Z.of_nat c) in
     let! M0 := (if Scalar.gt (abs pivot) eps
                 then let! f := pydiv 1 pivot in rowscale (Tensor M) (Z.of_nat r) f
                 else ret M) in
     eliminate eps r c (seq 0 n) M0) s
  = (if Scalar.gt (abs (entry d1 r c)) eps
     then if (entry d1 r c =? 0)%float then Raise ZeroDivisionError
          else Ok (eliminate_value eps r c (seq 0 n)
                     (scale_row d1 r (1 / entry d1 r c)))
     else Ok (eliminate_value eps r c (seq 0 n) d1)).
Proof.
  intros HM S Hr Hc. unfold result_of.
  rewrite (bind_ok _ _ _ _ _ (item_value _ _ _ _ _ _ _ HM S Hr Hc)).
  set (pivot := entry d1 r c).
  destruct (Scalar.gt (abs pivot) eps).
  - unfold pydiv. destruct (pivot =? 0)%float; [reflexivity|].
    cbn [bind ret].
    change (bind (bind (ret (1 / pivot)%float)
                       (fun f => rowscale (Tensor M) (Z.of_nat r) f)) ?k ?s0)
      with (bind (rowscale (Tensor M) (Z.of_nat r) (1 / pivot)%float) k s0).
    destruct (rowscale_run s (Tensor M) d1 (Z.of_nat r) r (1 / pivot)%float HM)
      as [g E]; [apply norm_index_of_nat; destruct S; unfold rows; lia|].
    rewrite (bind_ok _ _ _ _ _ E).
    destruct (eliminate_refines eps r c n m (seq 0 n) (s ++ g)
                (scale_row d1 r (1 / pivot)))
      as [g' E']; auto using shape_scale_row, Forall_seq_lt.
    rewrite E'. now rewrite lookup_fresh.
  - cbn [bind ret].
    destruct (eliminate_run eps r c n m (seq 0 n) s M d1 HM S Hr Hc
                (Forall_seq_lt 0 n n ltac:(lia))) as (l' & g & E & L).
    now rewrite E, L.
Qed.

(** The column step computes [reduce_column_value], on any tensor of the
    store. *)
Lemma reduce_column_run eps n m r c p (s : store) M (d : tensor) :
  s !! M = Some d -> shape n m d -> r < n -> c < m -> p < n ->
  result_of (reduce_column eps n r c p M) s = reduce_column_value eps n r c p d.
Proof.
  intros HM S Hr Hc Hp. unfold reduce_column, reduce_column_value.
  destruct (p =? r).
  - exact (scale_eliminate_run eps n m r c s M d HM S Hr Hc).
  - destruct (rowswap_run s (Tensor M) d (Z.of_nat r) (Z.of_nat p) r p HM) as [g E];
      try (apply norm_index_of_nat; destruct S; unfold rows; lia).
    unfold result_of. rewrite (bind_ok _ _ _ _ _ E).
    apply (scale_eliminate_run eps n m r c ((s ++ g) ++ [swap_rows d r p])
             (length (s ++ g)) (swap_rows d r p));
      auto using lookup_fresh, shape_swap_rows.
Qed.

(** X16.  The column step on a float64 tensor, with a row [p] whose entry [pivot]
    in column [c] exceeds a tolerance that is not negative: it returns a
    tensor whose row [r] is the row [p] of the tensor it started from with
    every entry multiplied, in binary64, by the reciprocal [1.0 / pivot] (the
    row is not divided by [pivot]), so that the pivot entry it leaves is
    [(1.0 / pivot) * pivot]. *)
Theorem pivot_row_is_scaled_by_reciprocal (s : store) (M : loc) (d : tensor)
        (eps : float) (r c p : nat) :
  s !! M = Some d -> rect d -> r < rows d -> c < cols d -> p < rows d ->
  Scalar.gt (abs (entry d p c)) eps = true -> (eps <? 0)%float = false ->
  exists d', result_of (reduce_column eps (rows d) r c p M) s = Ok d'
    /\ d' !!! r = map (fun x => 1 / entry d p c * x)%float (d !!! p)
    /\ entry d' r c = (1 / entry d p c * entry d p c)%float.
Proof.
  intros HM Rect Hr Hc Hp G E. apply shape_rect in Rect.
  rewrite (reduce_column_run eps _ _ r c p s M d HM Rect Hr Hc Hp).
  unfold reduce_column_value. unfold rows in *.
  rewrite (entry_swap_rows d r p c Hr Hp), G, (FloatFacts.gt_abs_nonzero eps _ G E).
  set (f := (1 / entry d p c)%float).
  set (d1 := if p =? r then d else swap_rows d r p).
  assert (S1 : shape (length d) (cols d) d1).
  { unfold d1. destruct (p =? r); auto using shape_swap_rows. }
  set (d2 := scale_row d1 r f).
  assert (L2 : length d2 = length d).
  { unfold d2, scale_row. rewrite length_insert. now destruct S1. }
  assert (Row : d2 !!! r = map (fun x => f * x)%float (d !!! p)).
  { unfold d2, scale_row. rewrite list_lookup_total_insert_eq by (destruct S1; lia).
    unfold d1. now rewrite row_swap_rows. }
  destruct (eliminate_value_rows eps r c d2 (length d2) 0 d2 ltac:(lia)
              (Nat.le_refl _) eq_refl) as [_ Rows].
  { intros rr Hrr. lia. }
  { reflexivity. }
  { reflexivity. }
  simpl in Rows. rewrite L2 in Rows.
  assert (Row' : eliminate_value eps r c (seq 0 (length d)) d2 !!! r
                 = map (fun x => f * x)%float (d !!! p)).
  { rewrite Rows by lia. unfold eliminated_row. now rewrite Nat.eqb_refl. }
  eexists. split; [reflexivity|]. split; [exact Row'|].
  unfold entry at 1. rewrite Row'.
  change (map ?g ?l) with (g <$> l).
  rewrite (list_lookup_total_fmap (fun x => f * x)%float (d !!! p) c); [reflexivity|].
  rewrite (shape_lookup _ _ d p Rect Hp). exact Hc.
Qed.

Lemma pivot_row_is_scaled_by_reciprocal_witness :
  exists d', result_of (reduce_column Scalar.default_eps (rows example_M) 0 0 1 0)
                       [example_M] = Ok d'
    /\ d' !!! 0 = map (fun x => 1 / entry example_M 1 0 * x)%float (example_M !!! 1)
    /\ entry d' 0 0 = (1 / entry example_M 1 0 * entry example_M 1 0)%float.
Proof.
  apply (pivot_row_is_scaled_by_reciprocal [example_M] 0 example_M Scalar.default_eps 0 0 1).
  - reflexivity.
  - repeat constructor.
  - simpl. lia.
  - simpl. lia.
  - simpl. lia.
  - vm_compute. reflexivity.
  - vm_compute. reflexivity.
Defined.

Lemma length_identity n : length (identity n) = n.
Proof. unfold identity. now rewrite length_map, length_seq. Qed.

Lemma row_identity n i :
  i < n -> identity n !!! i = map (fun j => if i =? j then 1%float else 0%float) (seq 0 n).
Proof.
  intros Hi. apply list_lookup_total_correct. unfold identity.
  change (map ?g ?l) with (g <$> l) at 1.
  rewrite list_lookup_fmap, lookup_seq_lt by assumption. reflexivity.
Qed.

Lemma entry_identity n i j :
  i < n -> j < n -> entry (identity n) i j = if i =? j then 1%float else 0%float.
Proof.
  intros Hi Hj. unfold entry. rewrite row_identity by assumption.
  apply list_lookup_total_correct. change (map ?g ?l) with (g <$> l).
  rewrite list_lookup_fmap, lookup_seq_lt by assumption. reflexivity.
Qed.

Lemma cols_identity n : cols (identity n) = n.
Proof.
  destruct n as [|n]; [reflexivity|].
  unfold cols. pose proof (row_identity (S n) 0 ltac:(lia)) as R.
  unfold identity in *. simpl in *. now rewrite length_map, length_seq.
Qed.

Lemma rect_identity n : rect (identity n).
Proof.
  unfold rect. rewrite cols_identity. unfold identity.
  apply Forall_fmap, Forall_forall. intros i _. simpl.
  now rewrite length_map, length_seq.
Qed.

Lemma rref_form_identity n : rref_form (seq 0 n) (identity n).
Proof.
  unfold rref_form, rows. rewrite cols_identity, length_identity, length_seq.
  split; [apply rect_identity|]. split; [lia|]. split; [|split].
  - intros i p Hp. apply lookup_seq in Hp as [-> Hi]. simpl.
    split; [assumption|]. split; [|split].
    + rewrite entry_identity by assumption. now rewrite Nat.eqb_refl.
    + intros j Hj. rewrite entry_identity by lia.
      destruct (Nat.eqb_spec i j); [lia | reflexivity].
    + intros i' Hi' N. rewrite entry_identity by lia.
      destruct (Nat.eqb_spec i' i); [contradiction | reflexivity].
  - intros i i' p p' Hlt Hp Hp'.
    apply lookup_seq in Hp as [-> _]. apply lookup_seq in Hp' as [-> _]. simpl. lia.
  - intros i j Hi. lia.
Qed.

Lemma clean_identity eps n : (eps <? 1)%float = true -> clean eps (identity n) = identity n.
Proof.
  intros E.
  assert (T1 : Scalar.tiny eps 1 = false).
  { unfold Scalar.tiny. rewrite abs_one.
    destruct (1 <? eps)%float eqn:C; [|reflexivity].
    pose proof (FloatFacts.ltb_trans _ _ _ E C) as H.
    now rewrite FloatFacts.ltb_irrefl in H. }
  unfold clean, identity. rewrite map_map. apply map_ext. intros i.
  rewrite map_map. apply map_ext. intros j.
  destruct (i =? j); [now rewrite T1 | now destruct (Scalar.tiny eps 0)].
Qed.

(** X17.  [rref] of an identity matrix, of any size and with any tolerance [eps]
    such that [0 <= eps < 1], returns an identity matrix of that size. *)
Theorem rref_identity (s : store) (A : arg) (n : nat) (eps : float) :
  arg_value s A = Some (identity n) ->
  (eps <? 0)%float = false -> (eps <? 1)%float = true ->
  result_of (rref A eps) s = Ok (identity n).
Proof.
  intros HA E0 E1.
  rewrite (refines_result _ _ _ (rref_refines s A _ eps HA (rect_identity n))).
  apply (rref_value_fixed eps (seq 0 n)); auto using rref_form_identity, clean_identity.
Qed.

Lemma rref_identity_witness :
  result_of (rref (Tensor 0) Scalar.default_eps) [identity 3] = Ok (identity 3).
Proof.
  apply (rref_identity [identity 3] (Tensor 0) 3 Scalar.default_eps).
  - reflexivity.
  - vm_compute. reflexivity.
  - vm_compute. reflexivity.
Defined.

Lemma ltb_nan_l x : (nan <? x)%float = false.
Proof.
  rewrite FloatAxioms.ltb_spec.
  replace (Prim2SF nan) with S754_nan by (vm_compute; reflexivity). reflexivity.
Qed.

Lemma ltb_nan_r x : (x <? nan)%float = false.
Proof.
  rewrite FloatAxioms.ltb_spec.
  replace (Prim2SF nan) with S754_nan by (vm_compute; reflexivity).
  unfold SFltb, SFcompare. now destruct (Prim2SF x).
Qed.

Lemma clean_nan (d : tensor) : clean nan d = d.
Proof.
  unfold clean. rewrite <- (map_id d) at 2. apply map_ext. intros row.
  rewrite <- (map_id row) at 2. apply map_ext. intros x.
  unfold Scalar.tiny. now rewrite ltb_nan_r.
Qed.

(** X18.  With the tolerance NaN no comparison succeeds: [rref] finds no pivot,
    cleans nothing and returns a tensor equal to its argument. *)
Theorem rref_with_nan_tolerance (s : store) (A : arg) (d : tensor) :
  arg_value s A = Some d -> rect d ->
  result_of (rref A nan) s = Ok d.
Proof.
  intros HA R.
  rewrite (refines_result _ _ _ (rref_refines s A d nan HA R)).
  rewrite rref_value_negligible; [now rewrite clean_nan | assumption |].
  unfold negligible. apply Forall_forall. intros row _.
  apply Forall_forall. intros x _. unfold Scalar.gt. apply ltb_nan_l.
Qed.

Lemma rref_with_nan_tolerance_witness :
  result_of (rref (Tensor 0) nan) [example_M] = Ok example_M.
Proof.
  apply (rref_with_nan_tolerance [example_M] (Tensor 0) example_M).
  - reflexivity.
  - repeat constructor.
Defined.

(** * What the results depend on *)

(** X19.  For arguments held in double precision, the tensor a function returns,
    or the exception it raises, depends on the value of its argument only: a
    nested sequence and a float64 tensor that hold the same rows, or two
    float64 tensors that do, in whatever stores, give the same outcome. *)
Theorem outcomes_depend_on_values_only (s s' : store) (A A' : arg) (d : tensor)
        (i j : Z) (factor j_scale k_scale eps : float) :
  arg_value s A = Some d -> arg_value s' A' = Some d -> rect d ->
  result_of (rowswap A i j) s = result_of (rowswap A' i j) s'
  /\ result_of (rowscale A i factor) s = result_of (rowscale A' i factor) s'
  /\ result_of (rowreplacement A i j j_scale k_scale) s
     = result_of (rowreplacement A' i j j_scale k_scale) s'
  /\ result_of (rref A eps) s = result_of (rref A' eps) s'.
Proof.
  intros HA HA' R.
  rewrite (refines_result _ _ _ (rowswap_refines s A d i j HA)).
  rewrite (refines_result _ _ _ (rowswap_refines s' A' d i j HA')).
  rewrite (refines_result _ _ _ (rowscale_refines s A d i factor HA)).
  rewrite (refines_result _ _ _ (rowscale_refines s' A' d i factor HA')).
  rewrite (refines_result _ _ _ (rowreplacement_refines s A d i j j_scale k_scale HA)).
  rewrite (refines_result _ _ _ (rowreplacement_refines s' A' d i j j_scale k_scale HA')).
  rewrite (refines_result _ _ _ (rref_refines s A d eps HA R)).
  rewrite (refines_result _ _ _ (rref_refines s' A' d eps HA' R)).
  auto.
Qed.

Lemma outcomes_depend_on_values_only_witness :
  result_of (rowswap (Tensor 0) 0 1) [example_M]
  = result_of (rowswap (nested example_M) 0 1) []
  /\ result_of (rowscale (Tensor 0) 0 2) [example_M]
     = result_of (rowscale (nested example_M) 0 2) []
  /\ result_of (rowreplacement (Tensor 0) 0 1 1 1) [example_M]
     = result_of (rowreplacement (nested example_M) 0 1 1 1) []
  /\ result_of (rref (Tensor 0) Scalar.default_eps) [example_M]
     = result_of (rref (nested example_M) Scalar.default_eps) [].
Proof.
  apply (outcomes_depend_on_values_only [example_M] [] (Tensor 0) (nested example_M)
           example_M 0 1 2 1 1 Scalar.default_eps).
  - reflexivity.
  - reflexivity.
  - repeat constructor.
Defined.

(** X20.  A matrix without columns has no column to reduce: [rref] returns a tensor
    equal to it, with any tolerance. *)
Theorem rref_without_columns (s : store) (A : arg) (d : tensor) (eps : float) :
  arg_value s A = Some d -> rect d -> cols d = 0 ->
  result_of (rref A eps) s = Ok d.
Proof.
  intros HA R C.
  assert (E : forall row, row ∈ d -> row = []).
  { intros row Hrow. unfold rect in R. rewrite Forall_forall in R.
    specialize (R row Hrow). rewrite C in R. now destruct row. }
  rewrite (refines_result _ _ _ (rref_refines s A d eps HA R)).
  rewrite rref_value_negligible; [f_equal | assumption |].
  - unfold clean. rewrite <- (map_id d) at 2. apply map_ext_in.
    intros row Hrow. apply list_elem_of_In in Hrow. now rewrite (E row Hrow).
  - unfold negligible. apply Forall_forall. intros row Hrow.
    rewrite (E row Hrow). constructor.
Qed.

Lemma rref_without_columns_witness :
  result_of (rref (Nested [] [[]]) Scalar.default_eps) [] = Ok [[]; []].
Proof.
  apply (rref_without_columns [] (Nested [] [[]]) [[]; []] Scalar.default_eps).
  - reflexivity.
  - repeat constructor.
  - reflexivity.
Defined.

(** X21.  [rref] with [0 <= eps < 1] returns a tensor equal to its argument
    whenever the argument is exactly in reduced row echelon form and the
    clean-up has nothing to do on it (no entry but [0.0] is below [eps] in
    magnitude), be it a result of [rref] or not. *)
Theorem rref_fixes_any_reduced_form (s : store) (A : arg) (R : tensor)
        (pc : list nat) (eps : float) :
  arg_value s A = Some R -> rref_formb pc R = true -> clean eps R = R ->
  (eps <? 0)%float = false -> (eps <? 1)%float = true ->
  result_of (rref A eps) s = Ok R.
Proof.
  intros HA Form C E0 E1. apply rref_formb_spec in Form.
  rewrite (refines_result _ _ _ (rref_refines s A R eps HA (proj1 Form))).
  now apply (rref_value_fixed eps pc).
Qed.

Lemma rref_fixes_any_reduced_form_witness :
  result_of (rref (nested [[1; 2; 0]; [0; 0; 1]]%float) Scalar.default_eps) []
  = Ok [[1; 2; 0]; [0; 0; 1]]%float.
Proof.
  apply (rref_fixes_any_reduced_form [] (nested [[1; 2; 0]; [0; 0; 1]]%float)
           [[1; 2; 0]; [0; 0; 1]]%float [0; 2] Scalar.default_eps).
  - reflexivity.
  - vm_compute. reflexivity.
  - vm_compute. reflexivity.
  - vm_compute. reflexivity.
  - vm_compute. reflexivity.
Defined.
